(** * zeesheet: the two-stage layout optimizer and the placement-quality model

    A shallow embedding of [sheet/layout/optimizer.py] and [sheet/placed.py].

    - Python [int] is [Z]; Python [float] is IEEE-754 binary64, modelled in
      [PyFloat] by the rational a float denotes, every arithmetic operation
      being the exact result rounded to nearest, ties to even, on 53
      significant bits.
    - Exceptions are values of [exn]; fallible code returns [res].
    - The optimizer threads a state (the [best_combos] dictionary of [run] and
      a ghost log of the calls made to the problem's hooks) through an
      error-and-state monad [M].
    - Placement nodes form an owned tree; the in-place [move] of the source
      returns the updated tree. *)

From Stdlib Require Import ZArith QArith Qround Qabs Qpower Lia Lqa List Bool.
From stdpp Require Import base option list gmap.
From Equations Require Import Equations.

Set Warnings "-register-all".

Open Scope Z_scope.

(** ** Exceptions and fallible results *)

Inductive exn : Type :=
  | ValueError
  | KeyError
  | AttributeError
  | IndexError
  | TypeError.

Inductive res (A : Type) : Type :=
  | Ok (a : A)
  | Raise (e : exn).

Arguments Ok {A} a.
Arguments Raise {A} e.

#[global] Instance res_ret : MRet res := fun A a => Ok a.
#[global] Instance res_bind : MBind res := fun A B f m =>
  match m with
  | Ok a => f a
  | Raise e => Raise e
  end.

(** A list comprehension whose body may raise: the first exception wins. *)
Fixpoint mapM {A B : Type} (f : A -> res B) (l : list A) : res (list B) :=
  match l with
  | [] => Ok []
  | a :: l' =>
      match f a with
      | Ok b =>
          match mapM f l' with
          | Ok bs => Ok (b :: bs)
          | Raise e => Raise e
          end
      | Raise e => Raise e
      end
  end.

(** ** Python floats *)

Module PyFloat.

(** A finite binary64 value, as the rational it denotes.  Infinities, NaN,
    signed zeros and the bounded exponent range are outside the model. *)
Definition float : Type := Q.

Definition pow2 (k : Z) : Q := (2 ^ k)%Q.

(** [ilog2 q] is the binary exponent of a positive rational:
    [2^(ilog2 q) <= q < 2^(ilog2 q + 1)]. *)
Definition ilog2 (q : Q) : Z :=
  let k := Z.log2 (Qnum q) - Z.log2 (Zpos (Qden q)) in
  if Qle_bool (pow2 k) q then k else k - 1.

(** Nearest integer, ties to the even one: Python's [round] on a float. *)
Definition round_half_even (q : Q) : Z :=
  let f := Qfloor q in
  match Qcompare (q - inject_Z f) (1 # 2) with
  | Lt => f
  | Gt => f + 1
  | Eq => if Z.even f then f else f + 1
  end.

(** The exponent of the last place of the float nearest to [q]. *)
Definition fexp (q : Q) : Z := ilog2 (Qabs q) - 52.

(** Round to nearest even on 53 significant bits. *)
Definition rnd (q : Q) : float :=
  if Qeq_bool q 0 then 0%Q
  else Qred (inject_Z (round_half_even (q * pow2 (- fexp q))) * pow2 (fexp q)).

Definition fadd (x y : float) : float := rnd (x + y).
Definition fsub (x y : float) : float := rnd (x - y).
Definition fmul (x y : float) : float := rnd (x * y).

(** [float(n)] for an int, as the mixed int/float operators apply it.
    Python raises [OverflowError] when [n] is beyond the range of a float;
    the model has no exponent range, and the statements bound the integers
    they convert. *)
Definition of_int (n : Z) : float := rnd (inject_Z n).

(** [n / d] on two ints (true division, correctly rounded); [d] is not 0. *)
Definition int_truediv (n d : Z) : float := rnd (inject_Z n / inject_Z d).

(** [round(x)] with one argument. *)
Definition py_round (x : float) : Z := round_half_even x.

(** [x < y] on floats. *)
Definition fltb (x y : float) : bool := negb (Qle_bool y x).

End PyFloat.

Import PyFloat.

(** ** sheet/layout/optimizer.py *)

Module Optimizer.

(** [class OptParams(NamedTuple)]. *)
Record OptParams : Type := mkOptParams {
  value : list Z;
  low : Z;
  high : Z
}.

(** [OptParams.__len__]; it also decides the truth value of an [OptParams]. *)
Definition len (p : OptParams) : nat := length (value p).

Definition _from_fraction (x : float) (a b : Z) : res Z :=
  if a =? b then Ok a
  else if a <? b then Ok (py_round (fadd (of_int a) (fmul x (of_int (b - a)))))
  else Raise ValueError.

Definition _to_fraction (x a b : Z) : res float :=
  if a =? b then Ok (1 # 2)%Q
  else if a <? b then Ok (int_truediv (x - a) (b - a))
  else Raise ValueError.

Definition _params2array (x : OptParams) : res (list float) :=
  mapM (fun v => _to_fraction v (low x) (high x)) (value x).

Definition _array2tuple (x : list float) (base : OptParams) : res (list Z) :=
  mapM (fun v => _from_fraction v (low base) (high base)) x.

Definition _array2params (x : list float) (base : OptParams) : res OptParams :=
  t ← _array2tuple x base; Ok (mkOptParams t (low base) (high base)).

(** [class OptimizeProblem(abc.ABC)]: the three hooks a concrete layout
    problem overrides.  [stage2parameters] is annotated
    [Optional[OptParams]], and its result is what [validity_error] is first
    called on. *)
Class OptimizeProblem : Type := {
  score : list Z -> list Z -> float;
  stage2parameters : list Z -> option OptParams;
  validity_error : option OptParams -> float
}.

(** What [scipy.optimize.minimize] hands back ([nit] and [message] are only
    logged). *)
Record OptimizeResult : Type := mkResult {
  success : bool;
  x : list float;
  fun_ : float
}.

(** [scipy.optimize.minimize(adapter, x0, method="powell", bounds)] is an
    external collaborator.  It is modelled by what it can do to its caller:
    evaluate the objective at a point and go on with the value it got back
    (which, in Python, may be [None]), hand back a result, or raise. *)
Inductive minimizer : Type :=
  | Evaluate (x : list float) (k : option float -> minimizer)
  | Return (r : OptimizeResult)
  | Raises (e : exn).

(** Ghost log of the calls made to the problem's hooks. *)
Inductive event : Type :=
  | Stage2Call (x1 : list Z)
  | ScoreCall (x1 x2 : list Z).

Record state : Type := mkState {
  best_combos : gmap (list Z) (option float * option OptParams);
  calls : list event
}.

Definition M (A : Type) : Type := state -> res A * state.

#[global] Instance M_ret : MRet M := fun A a s => (Ok a, s).
#[global] Instance M_bind : MBind M := fun A B f m s =>
  match m s with
  | (Ok a, s') => f a s'
  | (Raise e, s') => (Raise e, s')
  end.

Definition raise {A : Type} (e : exn) : M A := fun s => (Raise e, s).

Definition lift {A : Type} (r : res A) : M A := fun s => (r, s).

Definition emit (e : event) : M unit :=
  fun s => (Ok tt, mkState (best_combos s) (calls s ++ [e])).

Definition store (k : list Z) (v : option float * option OptParams) : M unit :=
  fun s => (Ok tt, mkState (<[k := v]> (best_combos s)) (calls s)).

Definition lookup_combo (k : list Z) : M (option float * option OptParams) :=
  fun s =>
    match best_combos s !! k with
    | Some v => (Ok v, s)
    | None => (Raise KeyError, s)
    end.

(** [best_combos = dict()]. *)
Definition fresh_combos : M unit := fun s => (Ok tt, mkState ∅ (calls s)).

(** The minimizer running against an objective that has effects. *)
Fixpoint drive (m : minimizer) (adapter : list float -> M (option float))
  : M OptimizeResult :=
  match m with
  | Evaluate x k => v ← adapter x; drive (k v) adapter
  | Return r => mret r
  | Raises e => raise e
  end.

(** [1e6 * (1 + err * err)]. *)
Definition penalty (err : float) : float :=
  fmul 1000000%Q (fadd 1%Q (fmul err err)).

Section Problem.

Context `{P : OptimizeProblem}.

(** The strategy [scipy] follows from the initial vector [x0] (the bounds
    are [(0.0, 1.0)] on each of its coordinates). *)
Variable minimize : list float -> minimizer.

(** The closure [adapter] of [_minimize]. *)
Definition adapter (func : list Z -> M (option float)) (x_init : OptParams)
  (x : list float) : M (option float) :=
  t ← lift (_array2tuple x x_init); func t.

Definition _minimize (func : list Z -> M (option float)) (x_init : OptParams)
  : M (option float * option OptParams) :=
  x0 ← lift (_params2array x_init);
  opt_results ← drive (minimize x0) (adapter func x_init);
  if success opt_results
  then p ← lift (_array2params (x opt_results) x_init);
       mret (Some (fun_ opt_results), Some p)
  else mret (None, None).

Definition stage2func (params1 : list Z) (params2init : OptParams)
  (x2 : list Z) : M (option float) :=
  let err := validity_error
               (Some (mkOptParams x2 (low params2init) (high params2init))) in
  if fltb 0%Q err then mret (Some (penalty err))
  else _ ← emit (ScoreCall params1 x2); mret (Some (score params1 x2)).

Definition _stage2optimize (params1 : list Z)
  : M (option float * option OptParams) :=
  _ ← emit (Stage2Call params1);
  let params2init := stage2parameters params1 in
  let err := validity_error params2init in
  if fltb 0%Q err then mret (Some (penalty err), None)
  else match params2init with
       | Some p2 => _minimize (stage2func params1 p2) p2
       | None => raise AttributeError
       end.

(** The closure [stage1func] of [run]. *)
Definition stage1func (params1 : list Z) : M (option float) :=
  '(f, params2) ← _stage2optimize params1;
  _ ← store params1 (f, params2);
  mret f.

(** [if opt1:] -- [None] is false, and so is an [OptParams] of length 0. *)
Definition truthy (o : option OptParams) : bool :=
  match o with
  | Some p => negb (Nat.eqb (len p) 0)
  | None => false
  end.

Definition run (x1init : OptParams)
  : M (option float * option OptParams * option OptParams) :=
  _ ← fresh_combos;
  '(_, opt1) ← _minimize stage1func x1init;
  match opt1 with
  | Some p =>
      if truthy opt1
      then '(f, opt2) ← lookup_combo (value p); mret (f, Some p, opt2)
      else mret (None, None, None)
  | None => mret (None, None, None)
  end.

End Problem.


End Optimizer.

(** ** sheet/placed.py *)

Module Placed.

(** Modelled from the spec: [sheet.common.Rect] is not among the sources.
    A rectangle is given by its four edges, in whole points; [rect_move]
    translates it and [rect_union] is the smallest rectangle around a
    non-empty sequence of rectangles. *)
Record Rect : Type := mkRect {
  left : Z;
  top : Z;
  right : Z;
  bottom : Z
}.

Definition width (r : Rect) : Z := right r - left r.
Definition height (r : Rect) : Z := bottom r - top r.

Definition rect_move (r : Rect) (dx dy : Z) : Rect :=
  mkRect (left r + dx) (top r + dy) (right r + dx) (bottom r + dy).

Definition rect_union2 (a b : Rect) : Rect :=
  mkRect (Z.min (left a) (left b)) (Z.min (top a) (top b))
         (Z.max (right a) (right b)) (Z.max (bottom a) (bottom b)).

Definition rect_union (r : Rect) (rs : list Rect) : Rect :=
  fold_left rect_union2 rs r.

(** [sheet.pdf.PDF] is not among the sources either; of the canvas only the
    two attributes that [placed.py] reads are kept. *)
Record PDF : Type := mkPDF {
  debug : bool;
  page_height : Z
}.

(** The instance attributes that [PlacedContent.__init__] sets. *)
Record attrs : Type := mkAttrs {
  pdf : PDF;
  requested : Rect;
  actual : Rect;
  ok_breaks : Z;
  bad_breaks : Z;
  internal_variance : Z;
  unused_width : Z;
  page_break_before : bool
}.

(** The concrete classes without children.  What they wrap (paragraph,
    image, table, style, path) belongs to the rendering collaborators and is
    left out; [PlacedPathContent] keeps its [offset]. *)
Inductive leaf_class : Type :=
  | PlacedParagraphContent
  | PlacedImageContent
  | PlacedTableContent
  | PlacedRectContent
  | PlacedPathContent (offset : Z * Z)
  | ErrorContent.

(** A placed object.  A [PlacedGroupContent] always has its [group]; it has
    the attributes of the base class only if [PlacedContent.__init__] ran. *)
Inductive PlacedContent : Type :=
  | Leaf (c : leaf_class) (a : attrs)
  | PlacedGroupContent (a : option attrs) (group : list PlacedContent).

(** [PlacedContent.__init__]. *)
Definition PlacedContent_init (requested actual : Rect) (pdf : PDF) : attrs :=
  mkAttrs pdf requested actual 0 0 0 (width requested - width actual) false.

Definition PlacedRectContent_init (bounds : Rect) (pdf : PDF) : PlacedContent :=
  Leaf PlacedRectContent (PlacedContent_init bounds bounds pdf).

Definition ErrorContent_init (bounds : Rect) (pdf : PDF) : PlacedContent :=
  Leaf ErrorContent (PlacedContent_init bounds bounds pdf).

(** Reading any of the base attributes of an object. *)
Definition get_attrs (n : PlacedContent) : res attrs :=
  match n with
  | Leaf _ a => Ok a
  | PlacedGroupContent (Some a) _ => Ok a
  | PlacedGroupContent None _ => Raise AttributeError
  end.

(** The truth value of an element of [children]: [None] is false, a group is
    as true as its [__len__] says, any other object is true. *)
Definition truthy (c : option PlacedContent) : bool :=
  match c with
  | None => false
  | Some (Leaf _ _) => true
  | Some (PlacedGroupContent _ g) => negb (Nat.eqb (length g) 0)
  end.

Definition set_rects (a : attrs) (req act : Rect) : attrs :=
  mkAttrs (pdf a) req act (ok_breaks a) (bad_breaks a) (internal_variance a)
          (unused_width a) (page_break_before a).

Definition set_ok_breaks (a : attrs) (n : Z) : attrs :=
  mkAttrs (pdf a) (requested a) (actual a) n (bad_breaks a)
          (internal_variance a) (unused_width a) (page_break_before a).

(** [PlacedContent.move] on the attributes. *)
Definition move_attrs (a : attrs) (dx dy : Z) : attrs :=
  let actual' := rect_move (actual a) dx dy in
  let requested' := rect_move (requested a) dx dy in
  set_rects a requested' actual'.

Definition move_class (c : leaf_class) (dx dy : Z) : leaf_class :=
  match c with
  | PlacedPathContent offset => PlacedPathContent (fst offset + dx, snd offset + dy)
  | _ => c
  end.

(** [move] of every class; the object is updated in place in the source and
    is the value returned here. *)
Fixpoint move (n : PlacedContent) (dx dy : Z) : res PlacedContent :=
  match n with
  | Leaf c a => Ok (Leaf (move_class c dx dy) (move_attrs a dx dy))
  | PlacedGroupContent None _ => Raise AttributeError
  | PlacedGroupContent (Some a) group =>
      match mapM (fun p => move p dx dy) group with
      | Ok group' => Ok (PlacedGroupContent (Some (move_attrs a dx dy)) group')
      | Raise e => Raise e
      end
  end.

Fixpoint parent_sized (n : PlacedContent) (bounds : Rect) : res PlacedContent :=
  match n with
  | Leaf PlacedImageContent a =>
      Ok (Leaf PlacedImageContent
            (set_ok_breaks a (Z.max 0 ((height bounds - height (actual a)) / 5))))
  | Leaf _ _ => Ok n
  | PlacedGroupContent a group =>
      match group with
      | [] => Ok n
      | _ :: _ =>
          if (1 <? length group)%nat
          then match a with
               | Some a' =>
                   match mapM (fun c => parent_sized c (requested a')) group with
                   | Ok group' => Ok (PlacedGroupContent a group')
                   | Raise e => Raise e
                   end
               | None => Raise AttributeError
               end
          else match mapM (fun c => parent_sized c bounds) group with
               | Ok group' => Ok (PlacedGroupContent a group')
               | Raise e => Raise e
               end
      end
  end.

Definition error_from_variance (n : PlacedContent) (multiplier : float) : res float :=
  a ← get_attrs n; Ok (fmul multiplier (of_int (internal_variance a))).

Definition error_from_breaks (n : PlacedContent) (multiplier_bad multiplier_good : float)
  : res float :=
  a ← get_attrs n;
  Ok (fadd (fmul multiplier_bad (of_int (bad_breaks a)))
           (fmul multiplier_good (of_int (ok_breaks a)))).

(** [error_from_size]: the method of the base class, overridden by
    [ErrorContent]. *)
Definition error_from_size (n : PlacedContent) (multiplier_bad multiplier_good : float)
  : res float :=
  match n with
  | Leaf ErrorContent a =>
      Ok (fsub 1000000000%Q (of_int (width (actual a) * height (actual a))))
  | _ =>
      a ← get_attrs n;
      if unused_width a <? 0
      then Ok (fmul (of_int (- unused_width a)) multiplier_bad)
      else Ok (fmul (of_int (unused_width a)) multiplier_good)
  end.

(** What [draw] asks of the canvas. *)
Inductive draw_cmd : Type :=
  | DrawFlowable (r : Rect)
  | DrawRect (r : Rect)
  | DrawPath (offset : Z * Z) (page_height : Z)
  | DebugRect (r : Rect) (page_height : Z).

Fixpoint draw (n : PlacedContent) : res (list draw_cmd) :=
  match n with
  | Leaf PlacedParagraphContent a
  | Leaf PlacedImageContent a
  | Leaf PlacedTableContent a => Ok [DrawFlowable (actual a)]
  | Leaf PlacedRectContent a
  | Leaf ErrorContent a => Ok [DrawRect (actual a)]
  | Leaf (PlacedPathContent offset) a => Ok [DrawPath offset (page_height (pdf a))]
  | PlacedGroupContent None _ => Raise AttributeError
  | PlacedGroupContent (Some a) group =>
      let frame :=
        if debug (pdf a) then [DebugRect (actual a) (page_height (pdf a))] else [] in
      match mapM draw group with
      | Ok cmds => Ok (frame ++ concat cmds)
      | Raise e => Raise e
      end
  end.

(** *** The unused width of a group *)

Fixpoint foldM {A B : Type} (f : B -> A -> res B) (l : list A) (b : B) : res B :=
  match l with
  | [] => Ok b
  | a :: l' =>
      match f b a with
      | Ok b' => foldM f l' b'
      | Raise e => Raise e
      end
  end.

(** [range(lo, hi)]. *)
Definition range (lo hi : Z) : list Z :=
  map (fun k => lo + Z.of_nat k) (seq 0 (Z.to_nat (hi - lo))).

(** [used[i] = v] on a [bytearray]: a negative index counts from the end,
    an index outside the array raises. *)
Definition bytearray_set (used : list Z) (i v : Z) : res (list Z) :=
  let n := Z.of_nat (length used) in
  if (0 <=? i) && (i <? n) then Ok (<[Z.to_nat i := v]> used)
  else if (- n <=? i) && (i <? 0) then Ok (<[Z.to_nat (n + i) := v]> used)
  else Raise IndexError.

Definition sum (l : list Z) : Z := fold_right Z.add 0 l.

Definition _unused_horizontal_strip (group : list PlacedContent) (bounds : Rect)
  : res Z :=
  let ox := left bounds in
  if width bounds <? 0 then Raise ValueError
  else
    match
      foldM (fun used g =>
               match get_attrs g with
               | Ok a =>
                   let d := unused_width a in
                   let l := left (requested a) + d / 2 in
                   let r := right (requested a) - d + d / 2 in
                   foldM (fun used i => bytearray_set used i 1) (range (l - ox) (r - ox)) used
               | Raise e => Raise e
               end)
            group (repeat 0 (Z.to_nat (width bounds)))
    with
    | Ok used => Ok (width bounds - sum used)
    | Raise e => Raise e
    end.

(** [sorted(group, key=lambda x: x.requested.top)]: the keys are read first,
    then the objects are put in order, equal keys keeping their order. *)
Definition item : Type := (attrs * PlacedContent)%type.

Definition item_top (x : item) : Z := top (requested (fst x)).
Definition item_bottom (x : item) : Z := bottom (requested (fst x)).

Fixpoint insert_by_top (x : item) (l : list item) : list item :=
  match l with
  | [] => [x]
  | y :: l' => if item_top x <=? item_top y then x :: y :: l' else y :: insert_by_top x l'
  end.

Definition sorted_by_top (l : list item) : list item :=
  fold_right insert_by_top [] l.

(** Reading the key of every object of the group. *)
Definition keyed (group : list PlacedContent) : res (list item) :=
  mapM (fun g => a ← get_attrs g; Ok (a, g)) group.

(** The inner [while]: [rest] is [items[idx:]]; it stops at the first item
    that starts at or below [lower]. *)
Fixpoint across_loop (lower : Z) (across rest : list item) : list item * list item :=
  match rest with
  | [] => (across, [])
  | y :: rest' =>
      if item_top y <? lower then across_loop lower (across ++ [y]) rest'
      else (across, rest)
  end.

Lemma across_loop_length lower across rest :
  (length (snd (across_loop lower across rest)) <= length rest)%nat.
Proof.
  revert across. induction rest as [|y rest IH]; intros across; simpl.
  - lia.
  - destruct (item_top y <? lower); simpl; [|lia].
    specialize (IH (across ++ [y])). lia.
Qed.

Definition inspect {A : Type} (a : A) : {b : A | a = b} := exist _ a eq_refl.

(** The outer [while] of [calculate_unused_width_for_group]: [rest] is
    [items[idx:]] and [items] is the whole sorted list. *)
Equations? scan (items : list PlacedContent) (bounds : Rect)
    (rest : list item) (unused : Z) : res Z by wf (length rest) lt :=
  scan items bounds [] unused := Ok unused;
  scan items bounds (x :: rest') unused
    with inspect (across_loop (item_bottom x) [x] rest') := {
    | exist _ (across, rest'') Heq
        with _unused_horizontal_strip items bounds := {
        | Ok s => scan items bounds rest'' (Z.min unused s)
        | Raise e => Raise e } }.
Proof.
  pose proof (across_loop_length (item_bottom x) [x] rest') as H.
  rewrite Heq in H. simpl in H. lia.
Qed.

Definition calculate_unused_width_for_group (group : list PlacedContent)
    (bounds : Rect) : res Z :=
  match keyed group with
  | Ok keys =>
      let items := sorted_by_top keys in
      scan (map snd items) bounds items (width bounds)
  | Raise e => Raise e
  end.

(** *** [PlacedGroupContent.__init__]

    [children] may be [None] and may hold [None]; a rectangle given for
    [actual] counts as true.  Without a child that is true the method
    returns before [PlacedContent.__init__] is called. *)

Fixpoint true_children (children : list (option PlacedContent))
  : list PlacedContent :=
  match children with
  | [] => []
  | c :: rest =>
      match c with
      | Some p => if truthy c then p :: true_children rest else true_children rest
      | None => true_children rest
      end
  end.

Definition PlacedGroupContent_init
    (children : option (list (option PlacedContent)))
    (requested : Rect) (actual : option Rect) : res PlacedContent :=
  let group :=
    match children with
    | Some l => true_children l
    | None => []
    end in
  match group with
  | [] => Ok (PlacedGroupContent None [])
  | first :: others =>
      actual' ←
        match actual with
        | Some r => Ok r
        | None =>
            a0 ← get_attrs first;
            rs ← mapM (fun p => a ← get_attrs p; Ok (Placed.actual a)) others;
            Ok (rect_union (Placed.actual a0) rs)
        end;
      a0 ← get_attrs first;
      oks ← mapM (fun i => a ← get_attrs i; Ok (ok_breaks a)) group;
      bads ← mapM (fun i => a ← get_attrs i; Ok (bad_breaks a)) group;
      unused ←
        (if width requested <? width actual'
         then Ok (width requested - width actual')
         else calculate_unused_width_for_group group requested);
      group' ← mapM (fun c => parent_sized c requested) group;
      Ok (PlacedGroupContent
            (Some (mkAttrs (pdf a0) requested actual' (sum oks) (sum bads) 0
                           unused false))
            group')
  end.

(** *** Vocabulary of the statements about [move] *)

(** Every object of the tree has the attributes of the base class. *)
Fixpoint initialised (n : PlacedContent) : bool :=
  match n with
  | Leaf _ _ => true
  | PlacedGroupContent None _ => false
  | PlacedGroupContent (Some _) group => forallb initialised group
  end.

(** Both rectangles are translated by [(dx, dy)] and the measurements are
    what they were. *)
Definition translated (dx dy : Z) (a a' : attrs) : Prop :=
  requested a' = rect_move (requested a) dx dy /\
  actual a' = rect_move (actual a) dx dy /\
  ok_breaks a' = ok_breaks a /\
  bad_breaks a' = bad_breaks a /\
  unused_width a' = unused_width a /\
  internal_variance a' = internal_variance a.

(** The same, for an object and, in a group, for each of its children. *)
Inductive moved (dx dy : Z) : PlacedContent -> PlacedContent -> Prop :=
  | moved_leaf c a a' :
      translated dx dy a a' ->
      moved dx dy (Leaf c a) (Leaf (move_class c dx dy) a')
  | moved_group a a' group group' :
      translated dx dy a a' ->
      Forall2 (moved dx dy) group group' ->
      moved dx dy (PlacedGroupContent (Some a) group)
                  (PlacedGroupContent (Some a') group').

(** *** The unused width of a group, as the specification words it

    The same scan, but each band is measured on the children batched into
    it ([across]), not on the whole group. *)

Equations? scan_spec (bounds : Rect) (rest : list item) (unused : Z)
    : res Z by wf (length rest) lt :=
  scan_spec bounds [] unused := Ok unused;
  scan_spec bounds (x :: rest') unused
    with inspect (across_loop (item_bottom x) [x] rest') := {
    | exist _ (across, rest'') Heq
        with _unused_horizontal_strip (map snd across) bounds := {
        | Ok s => scan_spec bounds rest'' (Z.min unused s)
        | Raise e => Raise e } }.
Proof.
  pose proof (across_loop_length (item_bottom x) [x] rest') as H.
  rewrite Heq in H. simpl in H. lia.
Qed.

Definition calculate_unused_width_for_group_spec (group : list PlacedContent)
    (bounds : Rect) : res Z :=
  match keyed group with
  | Ok keys => scan_spec bounds (sorted_by_top keys) (width bounds)
  | Raise e => Raise e
  end.

End Placed.

(** ** Concrete scenarios *)

Module Scenarios.

Import Optimizer.

(** One coarse parameter in [0, 10], one fine parameter in [0, 5] whose
    first guess is 2, never invalid, scored by
    [(coarse - 7)^2 + (fine - 2)^2]. *)
Definition quadratic : OptimizeProblem := {|
  score x1 x2 := of_int ((hd 0 x1 - 7) ^ 2 + (hd 0 x2 - 2) ^ 2);
  stage2parameters _ := Some (mkOptParams [2] 0 5);
  validity_error _ := 0%Q
|}.

(** A problem whose validity error is the first parameter times a
    billionth: [params.value[0] / 10**9]. *)
Definition nano : OptimizeProblem := {|
  score _ _ := 0%Q;
  stage2parameters _ := Some (mkOptParams [0] 0 5);
  validity_error o :=
    match o with
    | Some p => int_truediv (hd 0 (value p)) 1000000000
    | None => 0%Q
    end
|}.

(** A minimizer that evaluates the objective at the initial vector and
    reports it as the optimum; it cannot go on from a value that is not a
    number. *)
Definition probe_once (x0 : list float) : minimizer :=
  Evaluate x0 (fun v =>
    match v with
    | Some f => Return (mkResult true x0 f)
    | None => Raises TypeError
    end).

(** A minimizer that evaluates the objective at the initial vector and
    reports that it did not converge. *)
Definition never_converges (x0 : list float) : minimizer :=
  Evaluate x0 (fun v => Return (mkResult false x0 (default 0%Q v))).

Definition start : state := mkState ∅ [].

Import Placed.

Definition canvas : PDF := mkPDF false 1000.

(** An object that asks for [r] and leaves [unused] of its width free. *)
Definition placed (r : Rect) (unused : Z) : PlacedContent :=
  Leaf PlacedRectContent (mkAttrs canvas r r 0 0 0 unused false).

(** A page 100 wide with two children of full use, one above the other:
    the upper on the left half, the lower on the right half. *)
Definition page : Rect := mkRect 0 0 100 100.
Definition upper : PlacedContent := placed (mkRect 0 0 50 10) 0.
Definition lower : PlacedContent := placed (mkRect 50 20 100 30) 0.

(** The bounds and the children of [test_unused_group_of_horizontal]. *)
Definition test_bounds : Rect := mkRect 100 100 200 200.
Definition test_a : PlacedContent := placed (mkRect 130 100 170 200) 17.
Definition test_b : PlacedContent := placed (mkRect 180 100 190 200) 2.
Definition test_c : PlacedContent := placed (mkRect 100 100 190 200) 2.

End Scenarios.

(** ** Vocabulary for the log of the optimizer *)

Module OptimizerLog.

Import Optimizer.

(** A call of [score] for the coarse trial [params1] that went through both
    gates: the first fine guess was not invalid, and neither was the fine
    trial the call is for. *)
Definition gated_score_call `{P : OptimizeProblem} (params1 : list Z)
    (ev : event) : Prop :=
  exists p2 x2,
    ev = ScoreCall params1 x2 /\
    stage2parameters params1 = Some p2 /\
    fltb 0%Q (validity_error (Some p2)) = false /\
    fltb 0%Q (validity_error (Some (mkOptParams x2 (low p2) (high p2)))) = false.

(** An entry of [best_combos] that has fine parameters has a score. *)
Definition scored (e : option float * option OptParams) : Prop :=
  is_Some (snd e) -> is_Some (fst e).

(** A minimizer that evaluates the objective at the initial vector and then
    reports, as the optimum, a vector it never evaluated. *)
Definition stray (x0 : list float) : minimizer :=
  Evaluate x0 (fun v => Return (mkResult true (map (fun _ => 1%Q) x0) 0%Q)).

End OptimizerLog.

(** ** Vocabulary for the occupancy strip *)

Module Strip.

Import Placed.

(** The columns a child occupies, as [_unused_horizontal_strip] computes
    them: from [left] (included) to [right] (excluded). *)
Definition footprint (a : attrs) : Z * Z :=
  let d := unused_width a in
  (left (requested a) + d / 2, right (requested a) - d + d / 2).

(** Column [c] of the strip, counted from the left edge [ox] of the bounds,
    is under the footprint of [a]. *)
Definition covers (ox : Z) (a : attrs) (c : Z) : bool :=
  (fst (footprint a) - ox <=? c) && (c <? snd (footprint a) - ox).

(** The footprint lies within the bounds. *)
Definition inside (bounds : Rect) (a : attrs) : Prop :=
  left bounds <= fst (footprint a) /\ snd (footprint a) <= right bounds.

(** The number of columns of the bounds under the footprint of some child. *)
Definition covered_columns (bounds : Rect) (children : list attrs) : Z :=
  sum (map (fun c => if existsb (fun a => covers (left bounds) a c) children
                     then 1 else 0)
           (range 0 (width bounds))).

(** An occupancy array of [n] entries, each 0 or 1. *)
Definition bits (n : nat) (used : list Z) : Prop :=
  length used = n /\ Forall (fun b => 0 <= b <= 1) used.

End Strip.

(** ** Vocabulary for drawing after a move *)

Module Canvas.

Import Placed.

(** A request to the canvas, translated by [(dx, dy)]. *)
Definition shift_cmd (dx dy : Z) (c : draw_cmd) : draw_cmd :=
  match c with
  | DrawFlowable r => DrawFlowable (rect_move r dx dy)
  | DrawRect r => DrawRect (rect_move r dx dy)
  | DrawPath offset h => DrawPath (fst offset + dx, snd offset + dy) h
  | DebugRect r h => DebugRect (rect_move r dx dy) h
  end.

(** An object as [PlacedGroupContent.__init__] leaves it: with all its
    attributes, or the group of no child. *)
Definition constructed (n : PlacedContent) : Prop :=
  initialised n = true \/ n = PlacedGroupContent None [].

End Canvas.

(** ** More scenarios *)

Module Layouts.

Import Placed Scenarios.

(** The page as a group of the two children, one above the other. *)
Definition column : PlacedContent :=
  PlacedGroupContent (Some (PlacedContent_init page page canvas)) [upper; lower].

(** The same group, three points to the right and four down. *)
Definition column_moved : PlacedContent :=
  PlacedGroupContent
    (Some (PlacedContent_init (mkRect 3 4 103 104) (mkRect 3 4 103 104) canvas))
    [placed (mkRect 3 4 53 14) 0; placed (mkRect 53 24 103 34) 0].

(** An image 50 wide and 40 high. *)
Definition picture : PlacedContent :=
  Leaf PlacedImageContent
       (PlacedContent_init (mkRect 0 0 50 40) (mkRect 0 0 50 40) canvas).


End Layouts.

(** ** A search over several coarse trials *)

Module Searches.

Import Optimizer Scenarios.



End Searches.

(** ** Vocabulary for comparing an error node with the other nodes *)

Module Penalties.

Import Placed.

(** Any object but an [ErrorContent]: its [error_from_size] is the method
    of the base class. *)
Definition ordinary (n : PlacedContent) : bool :=
  match n with
  | Leaf ErrorContent _ => false
  | _ => true
  end.

(** No measurement above [N]: the unused width in either direction, the
    two break counts and the internal variance. *)
Definition within (N : Z) (a : attrs) : Prop :=
  - N <= unused_width a <= N /\
  bad_breaks a <= N /\ ok_breaks a <= N /\ internal_variance a <= N.

(** A weight between zero and [W]. *)
Definition weight (W : Z) (w : float) : Prop :=
  (0 <= w)%Q /\ (w <= inject_Z W)%Q.

(** Modelled from the spec: the caller that weights the three errors of an
    object and adds them up into one score is not among the sources. *)
Definition total_error (n : PlacedContent) (size_bad size_good breaks_bad breaks_good
    variance : float) : res float :=
  s ← error_from_size n size_bad size_good;
  b ← error_from_breaks n breaks_bad breaks_good;
  v ← error_from_variance n variance;
  Ok (fadd (fadd s b) v).

End Penalties.

(** * Facts about the float model *)

Module PyFloatFacts.

Local Open Scope Q_scope.

Lemma pow2_pos k : 0 < pow2 k.
Proof. apply Qpower_0_lt. reflexivity. Qed.

Lemma pow2_add a b : pow2 (a + b) == pow2 a * pow2 b.
Proof. apply Qpower_plus. discriminate. Qed.

Lemma pow2_succ a : pow2 (a + 1) == 2 * pow2 a.
Proof. rewrite pow2_add. unfold pow2 at 2. simpl. ring. Qed.

Lemma pow2_pred a : 2 * pow2 (a - 1) == pow2 a.
Proof. rewrite <- pow2_succ. now replace (a - 1 + 1)%Z with a by lia. Qed.

Lemma pow2_inv a : pow2 a * pow2 (- a) == 1.
Proof. rewrite <- pow2_add. now replace (a + - a)%Z with 0%Z by lia. Qed.

Lemma pow2_le a b : (a <= b)%Z -> pow2 a <= pow2 b.
Proof. intros H. apply Qpower_le_compat_l; [exact H | discriminate]. Qed.

Lemma pow2_lt a b : (a < b)%Z -> pow2 a < pow2 b.
Proof. intros H. apply Qpower_lt_compat_l; [exact H | reflexivity]. Qed.

Lemma pow2_Z k : (0 <= k)%Z -> inject_Z (2 ^ k) == pow2 k.
Proof. intros H. unfold pow2. now rewrite Zpower_Qpower. Qed.

Lemma Zlog2_Q n : (0 < n)%Z ->
  pow2 (Z.log2 n) <= inject_Z n /\ inject_Z n < 2 * pow2 (Z.log2 n).
Proof.
  intros Hn. destruct (Z.log2_spec n Hn) as [H1 H2].
  pose proof (Z.log2_nonneg n) as H0.
  rewrite <- pow2_succ, <- !pow2_Z by lia.
  rewrite <- Zle_Qle, <- Zlt_Qlt. replace (Z.log2 n + 1)%Z with (Z.succ (Z.log2 n)) by lia.
  split; assumption.
Qed.

Lemma ilog2_spec q : 0 < q -> pow2 (ilog2 q) <= q /\ q < 2 * pow2 (ilog2 q).
Proof.
  intros Hq. unfold ilog2.
  assert (E : q * inject_Z (Zpos (Qden q)) == inject_Z (Qnum q)).
  { destruct q as [n d]. cbn [Qnum Qden]. rewrite (Qmake_Qdiv n d). field. discriminate. }
  assert (Hn : (0 < Qnum q)%Z) by (unfold Qlt in Hq; cbn in Hq; lia).
  destruct (Zlog2_Q _ Hn) as [A1 A2].
  destruct (Zlog2_Q (Zpos (Qden q)) eq_refl) as [B1 B2].
  set (a := Z.log2 (Qnum q)) in *. set (b := Z.log2 (Zpos (Qden q))) in *.
  pose proof (pow2_pos a) as Pa. pose proof (pow2_pos b) as Pb.
  pose proof (pow2_pos (a - b)) as Pk.
  assert (K : pow2 (a - b) * pow2 b == pow2 a).
  { rewrite <- pow2_add. now replace (a - b + b)%Z with a by lia. }
  pose proof (pow2_pred (a - b)) as K1.
  remember (pow2 (a - b)) as X eqn:EX.
  remember (pow2 (a - b - 1)) as Y eqn:EY.
  remember (inject_Z (Qnum q)) as N eqn:EN.
  remember (inject_Z (Zpos (Qden q))) as D eqn:ED.
  remember (pow2 a) as A eqn:EA. remember (pow2 b) as B eqn:EB.
  assert (HD : 0 < D) by lra.
  destruct (Qle_bool X q) eqn:Hb.
  - apply Qle_bool_iff in Hb. rewrite <- EX. split; [exact Hb|].
    nra.
  - assert (Hlt : q < X).
    { apply Qnot_le_lt. intros C. apply Qle_bool_iff in C. congruence. }
    rewrite <- EY. split; [|lra].
    nra.
Qed.


Lemma rhe_comp q1 q2 : q1 == q2 -> round_half_even q1 = round_half_even q2.
Proof.
  intros H. unfold round_half_even.
  rewrite (Qfloor_comp _ _ H).
  assert (E : q1 - inject_Z (Qfloor q2) == q2 - inject_Z (Qfloor q2)) by (rewrite H; reflexivity).
  now rewrite (Qcompare_comp _ _ E _ _ (Qeq_refl (1 # 2))).
Qed.

Lemma rhe_bounds q :
  2 * inject_Z (round_half_even q) <= 2 * q + 1 /\
  2 * q - 1 <= 2 * inject_Z (round_half_even q).
Proof.
  unfold round_half_even.
  pose proof (Qfloor_le q) as L. pose proof (Qlt_floor q) as U.
  rewrite inject_Z_plus in U. change (inject_Z 1) with 1 in U.
  destruct (Qcompare_spec (q - inject_Z (Qfloor q)) (1 # 2)) as [E|E|E].
  - destruct (Z.even (Qfloor q)); rewrite ?inject_Z_plus;
      change (inject_Z 1) with 1; split; lra.
  - split; lra.
  - rewrite inject_Z_plus. change (inject_Z 1) with 1. split; lra.
Qed.

Lemma rhe_floor q :
  (Qfloor q <= round_half_even q <= Qfloor q + 1)%Z.
Proof.
  unfold round_half_even.
  destruct (Qcompare _ _); [destruct (Z.even _)| |]; lia.
Qed.

Lemma rhe_mono q1 q2 : q1 <= q2 -> (round_half_even q1 <= round_half_even q2)%Z.
Proof.
  intros H. pose proof (Qfloor_resp_le _ _ H) as F.
  destruct (Z.eq_dec (Qfloor q1) (Qfloor q2)) as [E|NE].
  - unfold round_half_even. rewrite E.
    destruct (Qcompare_spec (q1 - inject_Z (Qfloor q2)) (1 # 2)) as [E1|E1|E1];
    destruct (Qcompare_spec (q2 - inject_Z (Qfloor q2)) (1 # 2)) as [E2|E2|E2];
    try destruct (Z.even (Qfloor q2)); try lia; lra.
  - pose proof (rhe_floor q1). pose proof (rhe_floor q2). lia.
Qed.

Lemma rhe_Z z : round_half_even (inject_Z z) = z.
Proof.
  unfold round_half_even. rewrite Qfloor_Z.
  destruct (Qcompare_spec (inject_Z z - inject_Z z) (1 # 2)) as [E|E|E]; try lra.
  reflexivity.
Qed.

Lemma rhe_near q z :
  2 * q < 2 * inject_Z z + 1 -> 2 * inject_Z z - 1 < 2 * q -> round_half_even q = z.
Proof.
  intros H1 H2. destruct (rhe_bounds q) as [B1 B2].
  assert (A : inject_Z (round_half_even q) < inject_Z z + 1) by lra.
  assert (B : inject_Z z - 1 < inject_Z (round_half_even q)) by lra.
  change 1 with (inject_Z 1) in A, B.
  rewrite <- inject_Z_plus, <- Zlt_Qlt in A.
  unfold Qminus in B. rewrite <- inject_Z_opp, <- inject_Z_plus, <- Zlt_Qlt in B.
  lia.
Qed.


Lemma ilog2_unique q k :
  pow2 k <= q -> q < 2 * pow2 k -> ilog2 q = k.
Proof.
  intros L U.
  assert (Hq : 0 < q) by (pose proof (pow2_pos k); lra).
  destruct (ilog2_spec q Hq) as [L' U'].
  rewrite <- pow2_succ in U, U'.
  assert (A : pow2 k < pow2 (ilog2 q + 1)) by lra.
  assert (B : pow2 (ilog2 q) < pow2 (k + 1)) by lra.
  apply Qpower_lt_compat_l_inv in A; [|reflexivity].
  apply Qpower_lt_compat_l_inv in B; [|reflexivity].
  lia.
Qed.

Lemma ilog2_comp q1 q2 : 0 < q1 -> q1 == q2 -> ilog2 q1 = ilog2 q2.
Proof.
  intros H E. destruct (ilog2_spec q1 H) as [L U].
  symmetry. apply ilog2_unique; rewrite <- E; assumption.
Qed.

Lemma ilog2_mono q1 q2 : 0 < q1 -> q1 <= q2 -> (ilog2 q1 <= ilog2 q2)%Z.
Proof.
  intros H1 H. assert (H2 : 0 < q2) by lra.
  destruct (ilog2_spec q1 H1) as [L1 U1].
  destruct (ilog2_spec q2 H2) as [L2 U2].
  rewrite <- pow2_succ in U2.
  assert (A : pow2 (ilog2 q1) < pow2 (ilog2 q2 + 1)) by lra.
  apply Qpower_lt_compat_l_inv in A; [|reflexivity]. lia.
Qed.

Lemma rnd_eq q : ~ q == 0 ->
  rnd q == inject_Z (round_half_even (q * pow2 (- fexp q))) * pow2 (fexp q).
Proof.
  intros H. unfold rnd.
  destruct (Qeq_bool q 0) eqn:E.
  - apply Qeq_bool_iff in E. contradiction.
  - apply Qred_correct.
Qed.

Lemma rnd_zero q : q == 0 -> rnd q = 0.
Proof.
  intros H. unfold rnd. apply Qeq_bool_iff in H. now rewrite H.
Qed.

Lemma Qabs_pos_lt q : ~ q == 0 -> 0 < Qabs q.
Proof.
  intros H. apply Qabs_case; intros; destruct (Qeq_dec q 0); try contradiction; lra.
Qed.

Lemma fexp_comp q1 q2 : ~ q1 == 0 -> q1 == q2 -> fexp q1 = fexp q2.
Proof.
  intros N H. unfold fexp. f_equal.
  apply ilog2_comp; [now apply Qabs_pos_lt | now rewrite H].
Qed.

Lemma rnd_comp q1 q2 : q1 == q2 -> rnd q1 = rnd q2.
Proof.
  intros H. unfold rnd.
  destruct (Qeq_bool q1 0) eqn:E1; destruct (Qeq_bool q2 0) eqn:E2; trivial.
  - apply Qeq_bool_iff in E1. rewrite H in E1. apply Qeq_bool_iff in E1. congruence.
  - apply Qeq_bool_iff in E2. rewrite <- H in E2. apply Qeq_bool_iff in E2. congruence.
  - assert (N : ~ q1 == 0) by (intros C; apply Qeq_bool_iff in C; congruence).
    rewrite (fexp_comp q1 q2 N H). apply Qred_complete.
    rewrite (rhe_comp (q1 * pow2 (- fexp q2)) (q2 * pow2 (- fexp q2))); [reflexivity|].
    now rewrite H.
Qed.

(** Relative error of one rounding: at most 2^-53 of the magnitude. *)
Lemma rnd_error q :
  Qabs (rnd q - q) * 9007199254740992 <= Qabs q.
Proof.
  destruct (Qeq_dec q 0) as [Z|NZ].
  - rewrite (rnd_zero q Z). rewrite Z. apply Qle_bool_iff. reflexivity.
  - pose proof (rnd_eq q NZ) as E.
    destruct (ilog2_spec _ (Qabs_pos_lt q NZ)) as [L _].
    pose proof (pow2_inv (fexp q)) as I.
    pose proof (pow2_pos (fexp q)) as P.
    destruct (rhe_bounds (q * pow2 (- fexp q))) as [B1 B2].
    assert (K : pow2 (ilog2 (Qabs q)) == 4503599627370496 * pow2 (fexp q)).
    { unfold fexp. replace (ilog2 (Qabs q)) with (52 + (ilog2 (Qabs q) - 52))%Z at 1 by lia.
      rewrite pow2_add. reflexivity. }
    rewrite K in L.
    remember (round_half_even (q * pow2 (- fexp q))) as m.
    remember (pow2 (fexp q)) as X. remember (pow2 (- fexp q)) as Y.
    remember (inject_Z m) as M.
    assert (D : 2 * Qabs (rnd q - q) <= X).
    { apply Qabs_case; intros _; rewrite E; nra. }
    lra.
Qed.


Lemma rnd_range_pos q : 0 < q ->
  pow2 (ilog2 q) <= rnd q /\ rnd q <= 2 * pow2 (ilog2 q).
Proof.
  intros Hq.
  assert (NZ : ~ q == 0) by lra.
  rewrite (rnd_eq q NZ). unfold fexp.
  assert (A : ilog2 (Qabs q) = ilog2 q) by (apply ilog2_comp; rewrite Qabs_pos; lra).
  rewrite A. destruct (ilog2_spec q Hq) as [L U].
  set (e := (ilog2 q - 52)%Z).
  assert (K : pow2 (ilog2 q) == 4503599627370496 * pow2 e).
  { unfold e. replace (ilog2 q) with (52 + (ilog2 q - 52))%Z at 1 by lia.
    rewrite pow2_add. reflexivity. }
  pose proof (pow2_inv e) as I. pose proof (pow2_pos e) as P.
  pose proof (pow2_pos (- e)) as P'.
  assert (R1 : inject_Z 4503599627370496 <= q * pow2 (- e)).
  { change (inject_Z 4503599627370496) with 4503599627370496.
    rewrite K in L. remember (pow2 e) as X. remember (pow2 (- e)) as Y. nra. }
  assert (R2 : q * pow2 (- e) <= inject_Z 9007199254740992).
  { change (inject_Z 9007199254740992) with 9007199254740992.
    rewrite K in U. remember (pow2 e) as X. remember (pow2 (- e)) as Y. nra. }
  apply rhe_mono in R1. apply rhe_mono in R2. rewrite rhe_Z in R1, R2.
  rewrite Zle_Qle in R1, R2. rewrite K.
  change (inject_Z 4503599627370496) with 4503599627370496 in R1.
  change (inject_Z 9007199254740992) with 9007199254740992 in R2.
  remember (inject_Z (round_half_even (q * pow2 (- e)))) as M.
  remember (pow2 e) as X. split; nra.
Qed.

Lemma rnd_mono_pos q1 q2 : 0 < q1 -> q1 <= q2 -> rnd q1 <= rnd q2.
Proof.
  intros H1 H. assert (H2 : 0 < q2) by lra.
  pose proof (ilog2_mono q1 q2 H1 H) as M.
  destruct (Z.eq_dec (ilog2 q1) (ilog2 q2)) as [E|NE].
  - assert (N1 : ~ q1 == 0) by lra. assert (N2 : ~ q2 == 0) by lra.
    rewrite (rnd_eq q1 N1), (rnd_eq q2 N2). unfold fexp.
    assert (A1 : ilog2 (Qabs q1) = ilog2 q1) by (apply ilog2_comp; rewrite Qabs_pos; lra).
    assert (A2 : ilog2 (Qabs q2) = ilog2 q2) by (apply ilog2_comp; rewrite Qabs_pos; lra).
    rewrite A1, A2, E.
    set (e := (ilog2 q2 - 52)%Z).
    pose proof (pow2_pos e) as P. pose proof (pow2_pos (- e)) as P'.
    assert (R : q1 * pow2 (- e) <= q2 * pow2 (- e)) by (apply Qmult_le_compat_r; lra).
    apply rhe_mono in R. rewrite Zle_Qle in R.
    apply Qmult_le_compat_r; lra.
  - destruct (rnd_range_pos q1 H1) as [_ U]. destruct (rnd_range_pos q2 H2) as [L _].
    rewrite <- pow2_succ in U.
    assert (pow2 (ilog2 q1 + 1) <= pow2 (ilog2 q2)) by (apply pow2_le; lia).
    lra.
Qed.

Lemma rnd_pos q : 0 < q -> 0 < rnd q.
Proof.
  intros H. destruct (rnd_range_pos q H) as [L _].
  pose proof (pow2_pos (ilog2 q)). lra.
Qed.


Lemma rhe_opp q : round_half_even (- q) = (- round_half_even q)%Z.
Proof.
  pose proof (Qfloor_le q) as L. pose proof (Qlt_floor q) as U.
  pose proof (Qfloor_le (- q)) as L'. pose proof (Qlt_floor (- q)) as U'.
  rewrite inject_Z_plus in U, U'. change (inject_Z 1) with 1 in U, U'.
  destruct (Qeq_dec q (inject_Z (Qfloor q))) as [E|NE].
  - rewrite (rhe_comp q _ E), rhe_Z.
    assert (E' : - q == inject_Z (- Qfloor q)) by (rewrite inject_Z_opp, <- E; reflexivity).
    now rewrite (rhe_comp (- q) _ E'), rhe_Z.
  - assert (L1 : inject_Z (Qfloor q) < q).
    { destruct (Qlt_le_dec (inject_Z (Qfloor q)) q) as [H|H]; [exact H|].
      exfalso. apply NE. lra. }
    assert (G : Qfloor (- q) = (- Qfloor q - 1)%Z).
    { assert (A : inject_Z (Qfloor (- q)) < inject_Z (- Qfloor q)) by (rewrite inject_Z_opp; lra).
      assert (B : inject_Z (- Qfloor q - 2) < inject_Z (Qfloor (- q))).
      { unfold Z.sub. rewrite inject_Z_plus, inject_Z_opp.
        change (inject_Z (- (2))) with (- (2)). lra. }
      rewrite <- Zlt_Qlt in A, B. lia. }
    unfold round_half_even. rewrite G.
    assert (T : inject_Z (- Qfloor q - 1) == - inject_Z (Qfloor q) - 1).
    { unfold Z.sub. rewrite inject_Z_plus, inject_Z_opp. reflexivity. }
    assert (Ev : Z.even (- Qfloor q - 1) = negb (Z.even (Qfloor q))).
    { rewrite Z.even_sub, Z.even_opp. now destruct (Z.even (Qfloor q)). }
    rewrite Ev.
    destruct (Qcompare_spec (q - inject_Z (Qfloor q)) (1 # 2)) as [E1|E1|E1];
    destruct (Qcompare_spec (- q - inject_Z (- Qfloor q - 1)) (1 # 2)) as [E2|E2|E2];
    rewrite T in E2; try (exfalso; lra); try lia.
    destruct (Z.even (Qfloor q)); simpl; lia.
Qed.

Lemma rnd_opp q : rnd (- q) == - rnd q.
Proof.
  destruct (Qeq_dec q 0) as [Z|NZ].
  - rewrite (rnd_zero q Z). assert (Z' : - q == 0) by lra.
    rewrite (rnd_zero _ Z'). reflexivity.
  - assert (NZ' : ~ - q == 0) by (intros C; apply NZ; lra).
    rewrite (rnd_eq q NZ), (rnd_eq _ NZ').
    assert (F : fexp (- q) = fexp q).
    { unfold fexp. f_equal. apply ilog2_comp; [now apply Qabs_pos_lt | apply Qabs_opp]. }
    rewrite F.
    assert (R : - q * pow2 (- fexp q) == - (q * pow2 (- fexp q))) by ring.
    rewrite (rhe_comp _ _ R), rhe_opp, inject_Z_opp. ring.
Qed.

Lemma rnd_mono q1 q2 : q1 <= q2 -> rnd q1 <= rnd q2.
Proof.
  intros H.
  destruct (Qlt_le_dec 0 q1) as [P1|N1].
  - now apply rnd_mono_pos.
  - destruct (Qlt_le_dec 0 q2) as [P2|N2].
    + pose proof (rnd_pos q2 P2).
      destruct (Qeq_dec q1 0) as [Z|NZ].
      * rewrite (rnd_zero q1 Z). lra.
      * assert (P : 0 < - q1) by lra.
        pose proof (rnd_pos _ P) as R. rewrite rnd_opp in R. lra.
    + destruct (Qeq_dec q2 0) as [Z|NZ].
      * rewrite (rnd_zero q2 Z).
        destruct (Qeq_dec q1 0) as [Z1|NZ1].
        -- rewrite (rnd_zero q1 Z1). lra.
        -- assert (P : 0 < - q1) by lra.
           pose proof (rnd_pos _ P) as R. rewrite rnd_opp in R. lra.
      * assert (P : 0 < - q2) by lra.
        assert (Q' : - q2 <= - q1) by lra.
        pose proof (rnd_mono_pos _ _ P Q') as R.
        rewrite !rnd_opp in R. lra.
Qed.

Lemma rnd_exact_Z z : (Z.abs z < 2 ^ 53)%Z -> rnd (inject_Z z) == inject_Z z.
Proof.
  intros B.
  destruct (Z.eq_dec z 0%Z) as [->|NZ]; [reflexivity|].
  assert (NQ : ~ inject_Z z == 0).
  { intros C. apply NZ. change 0 with (inject_Z 0) in C.
    now apply (proj1 (inject_Z_injective _ _)) in C. }
  rewrite (rnd_eq _ NQ).
  assert (Hk : (fexp (inject_Z z) <= 0)%Z).
  { unfold fexp.
    destruct (ilog2_spec _ (Qabs_pos_lt _ NQ)) as [L _].
    change (Qabs (inject_Z z)) with (inject_Z (Z.abs z)) in L.
    assert (U : inject_Z (Z.abs z) < pow2 53).
    { rewrite <- pow2_Z by lia. now rewrite <- Zlt_Qlt. }
    assert (C : pow2 (ilog2 (inject_Z (Z.abs z))) < pow2 53) by lra.
    change (Qabs (inject_Z z)) with (inject_Z (Z.abs z)).
    apply Qpower_lt_compat_l_inv in C; [|reflexivity]. lia. }
  set (e := fexp (inject_Z z)) in *.
  assert (I : inject_Z z * pow2 (- e) == inject_Z (z * 2 ^ (- e))).
  { rewrite inject_Z_mult, pow2_Z by lia. reflexivity. }
  rewrite (rhe_comp _ _ I), rhe_Z, inject_Z_mult, pow2_Z by lia.
  pose proof (pow2_inv e) as J. rewrite <- Qmult_assoc.
  rewrite (Qmult_comm (pow2 (- e))), J. ring.
Qed.

Lemma rnd_error_bound q m :
  Qabs q <= m ->
  - m <= (rnd q - q) * 9007199254740992 /\ (rnd q - q) * 9007199254740992 <= m.
Proof.
  intros H. pose proof (rnd_error q) as E.
  assert (A : Qabs (rnd q - q) * 9007199254740992 <= m) by lra.
  revert A. apply Qabs_case; intros S A; split; lra.
Qed.

Lemma of_int_exact z : (Z.abs z < 2 ^ 53)%Z -> of_int z == inject_Z z.
Proof. apply rnd_exact_Z. Qed.

(** Three roundings on the way back: the quotient, its product with the
    width of the interval, and the sum with the lower bound. *)
Lemma round_trip_error (N D A : Q) :
  0 <= N -> N <= D -> 0 < D -> D <= 1125899906842624 ->
  - 562949953421312 <= A + N -> A + N <= 562949953421312 ->
  2 * rnd (A + rnd (rnd (N / D) * D)) < 2 * (A + N) + 1 /\
  2 * (A + N) - 1 < 2 * rnd (A + rnd (rnd (N / D) * D)).
Proof.
  intros HN0 HND HD0 HDB HX1 HX2.
  assert (R0 : 0 <= N / D).
  { apply Qle_shift_div_l; [exact HD0|]. now rewrite Qmult_0_l. }
  destruct (rnd_error_bound (N / D) (N / D)) as [E1 E1'].
  { rewrite Qabs_pos by exact R0. apply Qle_refl. }
  assert (RD : N / D * D == N) by (field; intros C; rewrite C in HD0; discriminate).
  remember (rnd (N / D)) as f eqn:Ef. clear Ef.
  remember (N / D) as rho eqn:Erho. clear Erho.
  unfold float in *.
  assert (F1 : - N <= (f * D - N) * 9007199254740992).
  { assert (K : (- rho) * D <= ((f - rho) * 9007199254740992) * D)
      by (apply Qmult_le_compat_r; lra).
    nra. }
  assert (F2 : (f * D - N) * 9007199254740992 <= N).
  { assert (K : ((f - rho) * 9007199254740992) * D <= rho * D)
      by (apply Qmult_le_compat_r; lra).
    nra. }
  remember (f * D) as g eqn:Eg. clear Eg RD E1 E1' R0 rho f.
  destruct (rnd_error_bound g (N + 1)) as [E2 E2'].
  { apply Qabs_Qle_condition. split; lra. }
  remember (rnd g) as t eqn:Et. clear Et. unfold float in *.
  destruct (rnd_error_bound (A + t) 562949953421313) as [E3 E3'].
  { apply Qabs_Qle_condition. split; lra. }
  remember (rnd (A + t)) as s eqn:Es. clear Es. unfold float in *.
  split; lra.
Qed.

End PyFloatFacts.

Import PyFloatFacts.

(** * The parameter codec *)

Section Codec.

Import Optimizer.
Local Open Scope Q_scope.

Lemma round_trip_lt (x lo hi : Z) :
  (- 2 ^ 49 <= lo)%Z -> (lo <= x)%Z -> (x <= hi)%Z -> (hi <= 2 ^ 49)%Z -> (lo < hi)%Z ->
  py_round (fadd (of_int lo) (fmul (int_truediv (x - lo) (hi - lo)) (of_int (hi - lo)))) = x.
Proof.
  intros H1 H2 H3 H4 H5.
  assert (P49 : (2 ^ 49 = 562949953421312)%Z) by reflexivity.
  assert (P53 : (2 ^ 53 = 9007199254740992)%Z) by reflexivity.
  unfold py_round, fadd, fmul, int_truediv.
  rewrite (rnd_comp _ _ (Qplus_comp _ _ (of_int_exact lo ltac:(lia)) _ _ (Qeq_refl _))).
  set (N := inject_Z (x - lo)). set (D := inject_Z (hi - lo)). set (A := inject_Z lo).
  assert (ED : rnd (N / D) * of_int (hi - lo) == rnd (N / D) * D).
  { rewrite (of_int_exact (hi - lo)) by lia. reflexivity. }
  rewrite (rnd_comp (A + rnd (rnd (N / D) * of_int (hi - lo))) (A + rnd (rnd (N / D) * D))).
  2:{ rewrite (rnd_comp _ _ ED). reflexivity. }
  assert (HX : inject_Z x == A + N).
  { unfold A, N. rewrite <- inject_Z_plus. now replace (lo + (x - lo))%Z with x by lia. }
  destruct (round_trip_error N D A) as [U L].
  - unfold N. rewrite <- (Zle_Qle 0). lia.
  - unfold N, D. rewrite <- Zle_Qle. lia.
  - unfold D. rewrite <- (Zlt_Qlt 0). lia.
  - unfold D. change 1125899906842624 with (inject_Z 1125899906842624).
    rewrite <- Zle_Qle. lia.
  - rewrite <- HX. change (- 562949953421312) with (inject_Z (- 562949953421312)).
    rewrite <- Zle_Qle. lia.
  - rewrite <- HX. change 562949953421312 with (inject_Z 562949953421312).
    rewrite <- Zle_Qle. lia.
  - apply rhe_near; rewrite HX; assumption.
Qed.

Local Close Scope Q_scope.

(** C5, as amended: for all integers [low <= x <= high] that lie within
    [-2^49, 2^49], decoding the encoded fraction gives [x] back. *)
Theorem codec_round_trip (x lo hi : Z) :
  - 2 ^ 49 <= lo -> lo <= x -> x <= hi -> hi <= 2 ^ 49 ->
  (_to_fraction x lo hi ≫= fun f => _from_fraction f lo hi) = Ok x.
Proof.
  intros H1 H2 H3 H4. unfold _to_fraction, _from_fraction.
  destruct (lo =? hi) eqn:E.
  - cbn. rewrite ?E. f_equal. apply Z.eqb_eq in E. lia.
  - assert (L : (lo <? hi) = true) by (apply Z.eqb_neq in E; apply Z.ltb_lt; lia).
    rewrite L. cbn. rewrite ?E, ?L. f_equal.
    apply Z.ltb_lt in L. apply round_trip_lt; lia.
Qed.

Lemma codec_round_trip_witness :
  (- 2 ^ 49 <= 0 /\ 0 <= 7 /\ 7 <= 10 /\ 10 <= 2 ^ 49) /\
  (_to_fraction 7 0 10 ≫= fun f => _from_fraction f 0 10) = Ok 7.
Proof.
  split; [lia|]. apply (codec_round_trip 7 0 10); lia.
Defined.

(** C5 as stated fails on large integers: [2^53 + 1] between [0] and [2^54]
    is encoded as [0.5] and decoded as [2^53]. *)
Lemma codec_round_trip_counterexample :
  0 <= 2 ^ 53 + 1 <= 2 ^ 54 /\
  _to_fraction (2 ^ 53 + 1) 0 (2 ^ 54) = Ok (1 # 2)%Q /\
  (_to_fraction (2 ^ 53 + 1) 0 (2 ^ 54) ≫= fun f => _from_fraction f 0 (2 ^ 54))
    = Ok (2 ^ 53) /\
  2 ^ 53 <> 2 ^ 53 + 1.
Proof.
  split; [lia|]. split; [vm_compute; reflexivity|].
  split; [vm_compute; reflexivity|]. lia.
Qed.

(** C7: on a degenerate axis [low = high = k], every value is encoded as
    [0.5] and every fraction is decoded as [k]. *)
Theorem codec_degenerate_axis (k : Z) :
  (forall x : Z, _to_fraction x k k = Ok (1 # 2)%Q) /\
  (forall f : float, _from_fraction f k k = Ok k).
Proof.
  split; intros; unfold _to_fraction, _from_fraction; now rewrite Z.eqb_refl.
Qed.

End Codec.

(** * The two-stage optimizer *)

Section OptimizerFacts.

Import Optimizer.

Context `{P : OptimizeProblem}.
Variable minimize : list float -> minimizer.


Ltac run_monad :=
  unfold mbind, M_bind, mret, M_ret, lift, raise, emit, store, fresh_combos in *;
  cbn [fst snd best_combos calls] in *.

Lemma mapM_length {A B : Type} (f : A -> res B) (l : list A) (r : list B) :
  mapM f l = Ok r -> length r = length l.
Proof.
  revert r. induction l as [|a l IH]; intros r H; cbn in H.
  - now inversion H.
  - destruct (f a); [|discriminate]. destruct (mapM f l); [|discriminate].
    inversion H; subst. cbn. f_equal. now apply IH.
Qed.








(** C6: when the stage-1 minimization reports no success, [run] returns the
    triple of [None] and raises nothing. *)
Theorem run_stage1_failure (x1init : OptParams) (s : state)
    (x0 : list float) (r : OptimizeResult) (s' : state) :
  _params2array x1init = Ok x0 ->
  drive (minimize x0) (adapter (stage1func minimize) x1init)
        (mkState ∅ (calls s)) = (Ok r, s') ->
  success r = false ->
  run minimize x1init s = (Ok (None, None, None), s').
Proof.
  intros Hx0 Hd Hr. unfold run, _minimize. run_monad.
  rewrite Hx0. cbn. now rewrite Hd, Hr.
Qed.

(** C1 (what the code does): when the stage-2 minimization of a coarse trial
    reports no success, [stage1func] stores the pair of [None] and returns
    [None], not a number, to the stage-1 minimizer. *)
Theorem stage1func_stage2_failure (params1 : list Z) (p2 : OptParams) (s : state)
    (x0 : list float) (r : OptimizeResult) (s' : state) :
  stage2parameters params1 = Some p2 ->
  fltb 0%Q (validity_error (Some p2)) = false ->
  _params2array p2 = Ok x0 ->
  drive (minimize x0) (adapter (stage2func params1 p2) p2)
        (mkState (best_combos s) (calls s ++ [Stage2Call params1])) = (Ok r, s') ->
  success r = false ->
  stage1func minimize params1 s
  = (Ok None, mkState (<[params1 := (None, None)]> (best_combos s')) (calls s')).
Proof.
  intros Hp2 Herr Hx0 Hd Hr.
  unfold stage1func, _stage2optimize, _minimize. run_monad.
  rewrite Hp2, Herr, Hx0. cbn. now rewrite Hd, Hr.
Qed.

Lemma penalty_mono (ea eb : float) :
  (0 < ea)%Q -> (ea <= eb)%Q -> (penalty ea <= penalty eb)%Q.
Proof.
  intros H0 H. unfold penalty, fmul, fadd. unfold float in *.
  assert (S : (ea * ea <= eb * eb)%Q) by nra.
  apply rnd_mono in S.
  assert (A : (1 + rnd (ea * ea) <= 1 + rnd (eb * eb))%Q) by lra.
  apply rnd_mono in A.
  apply rnd_mono. lra.
Qed.

(** C4, as amended: a trial whose validity error [err] is positive, be it the
    first fine guess or a fine trial inside stage 2, hands the float
    [1e6 * (1 + err * err)] to the minimizer and [score] is not called for it;
    and of two positive errors the smaller one never gets the larger
    penalty. *)
Theorem validity_penalty (params1 : list Z) (p2init : OptParams) (x2 : list Z)
    (s : state) (ea eb : float) :
  (fltb 0%Q (validity_error (stage2parameters params1)) = true ->
   let f := penalty (validity_error (stage2parameters params1)) in
   stage1func minimize params1 s
   = (Ok (Some f),
      mkState (<[params1 := (Some f, None)]> (best_combos s))
              (calls s ++ [Stage2Call params1]))) /\
  (fltb 0%Q (validity_error (Some (mkOptParams x2 (low p2init) (high p2init)))) = true ->
   stage2func params1 p2init x2 s
   = (Ok (Some (penalty (validity_error
                           (Some (mkOptParams x2 (low p2init) (high p2init)))))), s)) /\
  ((0 < ea)%Q -> (ea <= eb)%Q -> (penalty ea <= penalty eb)%Q).
Proof.
  split; [|split].
  - intros H f. unfold stage1func, _stage2optimize. run_monad. now rewrite H.
  - intros H. unfold stage2func. run_monad. now rewrite H.
  - apply penalty_mono.
Qed.

End OptimizerFacts.

(** ** The optimizer on the concrete scenarios *)

Section OptimizerScenarios.

Import Optimizer Scenarios.

Lemma run_stage1_failure_witness :
  _params2array (mkOptParams [5] 0 10) = Ok [(1 # 2)%Q] /\
  fst (run (P := quadratic) never_converges (mkOptParams [5] 0 10) start)
  = Ok (None, None, None).
Proof.
  split; [vm_compute; reflexivity|].
  rewrite (run_stage1_failure (P := quadratic) never_converges
             (mkOptParams [5] 0 10) start [(1 # 2)%Q]
             (mkResult false [(1 # 2)%Q] 0%Q)
             (snd (drive (never_converges [(1 # 2)%Q])
                         (adapter (stage1func (P := quadratic) never_converges)
                                  (mkOptParams [5] 0 10))
                         start))).
  - reflexivity.
  - vm_compute; reflexivity.
  - vm_compute; reflexivity.
  - reflexivity.
Defined.

Lemma stage1func_stage2_failure_witness :
  stage2parameters (OptimizeProblem := quadratic) [7] = Some (mkOptParams [2] 0 5) /\
  fltb 0%Q (validity_error (OptimizeProblem := quadratic) (Some (mkOptParams [2] 0 5)))
  = false /\
  fst (stage1func (P := quadratic) never_converges [7] start) = Ok None.
Proof.
  split; [reflexivity|]. split; [reflexivity|].
  rewrite (stage1func_stage2_failure (P := quadratic) never_converges [7]
             (mkOptParams [2] 0 5) start [rnd (2 # 5)]
             (mkResult false [rnd (2 # 5)] 0%Q)
             (snd (drive (never_converges [rnd (2 # 5)])
                         (adapter (stage2func (P := quadratic) [7] (mkOptParams [2] 0 5))
                                  (mkOptParams [2] 0 5))
                         (mkState ∅ [Stage2Call [7]])))).
  - reflexivity.
  - reflexivity.
  - reflexivity.
  - vm_compute; reflexivity.
  - vm_compute; reflexivity.
  - reflexivity.
Defined.

(** With a minimizer that cannot go on from [None], the failure of stage 2 on
    the first coarse trial ends [run] with an exception. *)
Example run_aborts_on_stage2_failure :
  let minimize x0 :=
    match x0 with
    | [x] => if Qeq_bool x (1 # 2) then probe_once x0 else never_converges x0
    | _ => never_converges x0
    end in
  fst (run (P := quadratic) minimize (mkOptParams [5] 0 10) start) = Raise TypeError.
Proof. vm_compute. reflexivity. Qed.

Lemma validity_penalty_witness :
  fltb 0%Q (validity_error (OptimizeProblem := nano) (Some (mkOptParams [3] 0 5))) = true /\
  fst (stage2func (P := nano) [0] (mkOptParams [0] 0 5) [3] start)
  = Ok (Some (penalty (int_truediv 3 1000000000))) /\
  snd (stage2func (P := nano) [0] (mkOptParams [0] 0 5) [3] start) = start /\
  (penalty 1 <= penalty 2)%Q.
Proof.
  destruct (validity_penalty (P := nano) never_converges [0] (mkOptParams [0] 0 5) [3]
              start 1%Q 2%Q) as (_ & H2 & H3).
  split; [vm_compute; reflexivity|].
  rewrite H2 by (vm_compute; reflexivity).
  split; [reflexivity|]. split; [reflexivity|].
  apply H3; [reflexivity | discriminate].
Defined.

(** C4 as stated fails in float arithmetic: the validity errors [1e-9] and
    [2e-9] are positive and different, and both trials get the penalty
    [1000000.0]. *)
Lemma validity_penalty_counterexample :
  let ea := validity_error (OptimizeProblem := nano) (Some (mkOptParams [1] 0 5)) in
  let eb := validity_error (OptimizeProblem := nano) (Some (mkOptParams [2] 0 5)) in
  (0 < ea)%Q /\ (ea < eb)%Q /\
  fst (stage2func (P := nano) [0] (mkOptParams [0] 0 5) [1] start) = Ok (Some 1000000%Q) /\
  fst (stage2func (P := nano) [0] (mkOptParams [0] 0 5) [2] start) = Ok (Some 1000000%Q) /\
  ~ (penalty ea < penalty eb)%Q.
Proof.
  cbv zeta. split; [vm_compute; reflexivity|]. split; [vm_compute; reflexivity|].
  split; [vm_compute; reflexivity|]. split; [vm_compute; reflexivity|].
  vm_compute. discriminate.
Qed.

End OptimizerScenarios.

(** * The placement-quality model *)

Section PlacedFacts.

Import Placed.

(** Each turn of the outer loop measures the whole sorted group, so a group
    with a child gets the unused width of one strip across all its children. *)
Lemma scan_measures_whole_group (items : list PlacedContent) (bounds : Rect)
    (rest : list item) (unused s : Z) :
  _unused_horizontal_strip items bounds = Ok s ->
  rest <> [] ->
  scan items bounds rest unused = Ok (Z.min unused s).
Proof.
  intros Hs.
  assert (G : forall n l u, (length l <= n)%nat -> l <> [] ->
              scan items bounds l u = Ok (Z.min u s)).
  { clear rest unused. induction n as [|n IH]; intros rest unused Hlen Hne.
    - destruct rest; [contradiction|cbn in Hlen; lia].
    - destruct rest as [|x rest']; [contradiction|].
      simp scan. destruct (inspect _) as [[across rest''] Heq]. cbn.
      rewrite Hs. cbn.
      pose proof (across_loop_length (item_bottom x) [x] rest') as H.
      rewrite Heq in H. cbn in H, Hlen.
      destruct rest'' as [|y rest3].
      + simp scan. reflexivity.
      + rewrite IH; [f_equal; lia | cbn in *; lia | discriminate]. }
  intros Hne. now apply (G (length rest)).
Qed.


(** What the code computes for a group: the width of the bounds for no
    child, else one strip across all the children. *)
Lemma calculate_unused_width_whole_group (group : list PlacedContent)
    (bounds : Rect) (keys : list item) (s : Z) :
  keyed group = Ok keys ->
  _unused_horizontal_strip (map snd (sorted_by_top keys)) bounds = Ok s ->
  group <> [] ->
  calculate_unused_width_for_group group bounds = Ok (Z.min (width bounds) s).
Proof.
  intros Hk Hs Hne. unfold calculate_unused_width_for_group. rewrite Hk.
  apply scan_measures_whole_group; [exact Hs|].
  destruct group as [|g group]; [contradiction|]. unfold keyed in Hk. cbn in Hk.
  destruct (get_attrs g) as [a|]; [|discriminate]. cbn in Hk.
  destruct (mapM _ group) as [ks|]; [|discriminate]. inversion Hk; subst. cbn.
  generalize (fold_right insert_by_top [] ks). intros l'.
  destruct l' as [|y l']; cbn; [discriminate|].
  destruct (_ <=? _); discriminate.
Qed.

(** *** An induction principle that reaches the children of a group *)

Lemma PlacedContent_rect' (Q : PlacedContent -> Prop)
    (Hleaf : forall c a, Q (Leaf c a))
    (Hgroup : forall a group, Forall Q group -> Q (PlacedGroupContent a group)) :
  forall n, Q n.
Proof.
  fix IH 1. intros [c a|a group].
  - apply Hleaf.
  - apply Hgroup. induction group as [|p group IHg]; constructor.
    + apply IH.
    + exact IHg.
Qed.

Lemma translated_move_attrs (a : attrs) (dx dy : Z) :
  translated dx dy a (move_attrs a dx dy).
Proof. unfold translated, move_attrs, set_rects. cbn. tauto. Qed.

(** C9, as amended: on an object whose attributes were all set (any object
    but a group built from no true child, at any depth), [move] translates
    the requested and the actual rectangle by [(dx, dy)], does so for every
    child of a group, and keeps the breaks, the unused width and the internal
    variance. *)
Theorem move_translates (n : PlacedContent) (dx dy : Z) :
  initialised n = true ->
  exists n', move n dx dy = Ok n' /\ moved dx dy n n'.
Proof.
  induction n as [c a|a group IH] using PlacedContent_rect'; intros Hinit.
  - eexists. split; [reflexivity|]. constructor. apply translated_move_attrs.
  - destruct a as [a|]; [|discriminate]. cbn in Hinit.
    assert (G : exists group', mapM (fun p => move p dx dy) group = Ok group' /\
                               Forall2 (moved dx dy) group group').
    { clear a. induction IH as [|p group Hp _ IHg]; cbn in *.
      - exists []. split; [reflexivity|constructor].
      - apply andb_true_iff in Hinit. destruct Hinit as [Hi1 Hi2].
        destruct (Hp Hi1) as (p' & Hm & Hmv).
        destruct (IHg Hi2) as (g' & Hg & Hgv).
        exists (p' :: g'). rewrite Hm, Hg. split; [reflexivity|].
        now constructor. }
    destruct G as (group' & Hg & Hgv).
    exists (PlacedGroupContent (Some (move_attrs a dx dy)) group').
    cbn. rewrite Hg. split; [reflexivity|].
    constructor; [apply translated_move_attrs | exact Hgv].
Qed.

Lemma true_children_none (children : list (option PlacedContent)) :
  Forall (fun c => truthy c = false) children -> true_children children = [].
Proof.
  induction 1 as [|c children Hc _ IH]; cbn; [reflexivity|].
  destruct c as [p|]; [|exact IH]. now rewrite Hc.
Qed.

(** C10: built from no child, or from children that are all [None] or false,
    a group is returned before the base initialisation: it has none of the
    base attributes, and [error_from_size], [move] and [draw] raise
    [AttributeError] on it. *)
Theorem empty_group_has_no_attributes (children : list (option PlacedContent))
    (requested : Rect) (actual : option Rect) :
  Forall (fun c => truthy c = false) children ->
  let g := PlacedGroupContent None [] in
  PlacedGroupContent_init (Some children) requested actual = Ok g /\
  PlacedGroupContent_init None requested actual = Ok g /\
  get_attrs g = Raise AttributeError /\
  (forall mb mg, error_from_size g mb mg = Raise AttributeError) /\
  (forall dx dy, move g dx dy = Raise AttributeError) /\
  draw g = Raise AttributeError.
Proof.
  intros H g. unfold PlacedGroupContent_init.
  rewrite (true_children_none _ H). repeat split.
Qed.

Local Open Scope Q_scope.

(** The badness of an [ErrorContent] of a given area: [1e9 - area]. *)
Lemma error_badness_exact (a : Z) :
  (0 <= a < 2 ^ 53)%Z ->
  fsub 1000000000 (of_int a) == 1000000000 - inject_Z a.
Proof.
  intros H. unfold fsub, of_int.
  assert (E : 1000000000 - rnd (inject_Z a) == inject_Z (1000000000 - a)).
  { rewrite rnd_exact_Z by lia. unfold Z.sub.
    rewrite inject_Z_plus, inject_Z_opp. reflexivity. }
  rewrite (rnd_comp _ _ E), rnd_exact_Z by lia.
  unfold Z.sub. rewrite inject_Z_plus, inject_Z_opp. reflexivity.
Qed.

Import Penalties.

Lemma rnd_below_Z (q : Q) (z : Z) :
  (Z.abs z < 2 ^ 53)%Z -> q <= inject_Z z -> rnd q <= inject_Z z.
Proof.
  intros B H. apply rnd_mono in H. now rewrite rnd_exact_Z in H by exact B.
Qed.

(** A measurement at most [N] under a weight at most [W] costs at most
    [N * W], in float arithmetic too. *)
Lemma weighted_below (k N W : Z) (w : float) :
  (k <= N)%Z -> (0 <= N)%Z -> (0 < W)%Z -> (N * W < 2 ^ 53)%Z -> weight W w ->
  fmul (of_int k) w <= inject_Z (N * W) /\ fmul w (of_int k) <= inject_Z (N * W).
Proof.
  intros Hk HN HW HB [Hw0 Hw1].
  assert (BN : (Z.abs N < 2 ^ 53)%Z) by nia.
  assert (Hx : of_int k <= inject_Z N).
  { unfold of_int. apply rnd_below_Z; [exact BN|]. now rewrite <- Zle_Qle. }
  assert (HNq : 0 <= inject_Z N) by (now rewrite <- (Zle_Qle 0)).
  assert (Hp : of_int k * w <= inject_Z (N * W)).
  { rewrite inject_Z_mult.
    remember (of_int k) as x0 eqn:Ex. remember (inject_Z N) as n0 eqn:En.
    remember (inject_Z W) as w0 eqn:Ew. clear Ex En Ew.
    unfold float in *.
    destruct (Qlt_le_dec x0 0) as [Hneg|Hpos]; nra. }
  split; unfold fmul.
  - apply rnd_below_Z; [lia|exact Hp].
  - apply rnd_below_Z; [lia|]. now rewrite Qmult_comm.
Qed.

(** C8, as amended: for an [ErrorContent] whose actual area lies between 0
    and [2^53], [error_from_size] is the float [1e9 - w * h], which is that
    number exactly, whatever the two weights are; it falls when the area
    grows; and it is above the sum of the size, break and variance errors of
    every other object whose measurements are at most [N], under weights
    between 0 and [W], as long as [4 * N * W] and the area together stay
    below [1e9]. *)
Theorem error_content_badness (e1 e2 : attrs) (mb mg mb' mg' : float)
    (n : PlacedContent) (a : attrs) (bb bg m : float) (N W : Z) :
  let area (x : attrs) := (width (actual x) * height (actual x))%Z in
  let badness (x : attrs) := fsub 1000000000 (of_int (area x)) in
  (0 <= area e1 < 2 ^ 53)%Z ->
  error_from_size (Leaf ErrorContent e1) mb mg = Ok (badness e1) /\
  error_from_size (Leaf ErrorContent e1) mb' mg' = Ok (badness e1) /\
  badness e1 == 1000000000 - inject_Z (area e1) /\
  ((area e1 < area e2 < 2 ^ 53)%Z -> badness e2 < badness e1) /\
  (ordinary n = true -> get_attrs n = Ok a -> within N a ->
   weight W mb -> weight W mg -> weight W bb -> weight W bg -> weight W m ->
   (0 <= N)%Z -> (0 < W)%Z -> (4 * N * W + area e1 < 1000000000)%Z ->
   exists t, total_error n mb mg bb bg m = Ok t /\ t < badness e1).
Proof.
  intros area badness Ha.
  assert (Hb : badness e1 == 1000000000 - inject_Z (area e1))
    by (apply error_badness_exact; lia).
  split; [reflexivity|]. split; [reflexivity|]. split; [exact Hb|]. split.
  - intros H. unfold badness in *. rewrite Hb.
    rewrite error_badness_exact by lia.
    assert (L : inject_Z (area e1) < inject_Z (area e2)) by (rewrite <- Zlt_Qlt; lia).
    unfold float in *. lra.
  - intros Ho Hn (Hu & Hbad & Hok & Hvar) Wmb Wmg Wbb Wbg Wm HN HW Hsum.
    assert (B1 : (N * W < 2 ^ 53)%Z) by nia.
    assert (Hs : exists s, error_from_size n mb mg = Ok s /\ s <= inject_Z (N * W)).
    { assert (E : error_from_size n mb mg
                  = if (unused_width a <? 0)%Z
                    then Ok (fmul (of_int (- unused_width a)) mb)
                    else Ok (fmul (of_int (unused_width a)) mg)).
      { destruct n as [c a0|a0 g]; cbn in Hn, Ho |- *.
        - injection Hn as ->. destruct c; try reflexivity. discriminate.
        - rewrite Hn. reflexivity. }
      rewrite E. destruct (unused_width a <? 0)%Z; eexists; (split; [reflexivity|]).
      + apply (weighted_below (- unused_width a) N W mb); try assumption; lia.
      + apply (weighted_below (unused_width a) N W mg); try assumption; lia. }
    destruct Hs as (s0 & Es & Hs).
    unfold total_error. rewrite Es. unfold error_from_breaks, error_from_variance.
    rewrite Hn. cbn.
    destruct (weighted_below (bad_breaks a) N W bb Hbad HN HW B1 Wbb) as [_ H1].
    destruct (weighted_below (ok_breaks a) N W bg Hok HN HW B1 Wbg) as [_ H2].
    destruct (weighted_below (internal_variance a) N W m Hvar HN HW B1 Wm) as [_ H3].
    eexists. split; [reflexivity|]. rewrite Hb.
    assert (T : fadd (fadd s0 (fadd (fmul bb (of_int (bad_breaks a)))
                                    (fmul bg (of_int (ok_breaks a)))))
                     (fmul m (of_int (internal_variance a)))
                <= inject_Z (4 * N * W)).
    { unfold fadd at 1. apply rnd_below_Z; [lia|].
      assert (T2 : fadd (fmul bb (of_int (bad_breaks a))) (fmul bg (of_int (ok_breaks a)))
                   <= inject_Z (2 * N * W)).
      { unfold fadd. apply rnd_below_Z; [lia|].
        replace (2 * N * W)%Z with (N * W + N * W)%Z by lia.
        rewrite inject_Z_plus. unfold float in *. lra. }
      assert (T3 : fadd s0 (fadd (fmul bb (of_int (bad_breaks a)))
                                 (fmul bg (of_int (ok_breaks a))))
                   <= inject_Z (3 * N * W)).
      { unfold fadd at 1. apply rnd_below_Z; [lia|].
        replace (3 * N * W)%Z with (N * W + 2 * N * W)%Z by lia.
        rewrite inject_Z_plus. unfold float in *. lra. }
      replace (4 * N * W)%Z with (3 * N * W + N * W)%Z by lia.
      rewrite inject_Z_plus. unfold float in *. lra. }
    assert (L : inject_Z (4 * N * W) + inject_Z (area e1) < 1000000000).
    { rewrite <- inject_Z_plus. change 1000000000 with (inject_Z 1000000000).
      now rewrite <- Zlt_Qlt. }
    unfold float in *. lra.
Qed.

Local Close Scope Q_scope.

End PlacedFacts.

Section PlacedScenarios.

Import Placed Scenarios.

(** The model gives what the repository's own test expects. *)
Example test_unused_group_of_horizontal :
  calculate_unused_width_for_group [test_a] test_bounds = Ok (30 + 30 + 17) /\
  calculate_unused_width_for_group [test_a; test_b] test_bounds
  = Ok (30 + 10 + 10 + 17 + 2) /\
  calculate_unused_width_for_group [test_c] test_bounds = Ok (10 + 2) /\
  calculate_unused_width_for_group [test_a; test_c] test_bounds = Ok (10 + 2) /\
  calculate_unused_width_for_group [test_b; test_c] test_bounds = Ok (10 + 2) /\
  calculate_unused_width_for_group [test_a; test_b; test_c] test_bounds = Ok (10 + 2).
Proof. repeat split; vm_compute; reflexivity. Qed.

(** C2 (what the code does): two children one above the other, each as wide
    as half the page and without unused width, form two bands with 50 free
    columns each; the code measures all the children in every band and finds
    no free column. *)
Theorem group_unused_width_ignores_bands :
  width page >= width (rect_union2 (mkRect 0 0 50 10) (mkRect 50 20 100 30)) /\
  calculate_unused_width_for_group_spec [upper; lower] page = Ok 50 /\
  calculate_unused_width_for_group [upper; lower] page = Ok 0 /\
  (PlacedGroupContent_init (Some [Some upper; Some lower]) page None
     ≫= fun g => get_attrs g ≫= fun a => Ok (unused_width a)) = Ok 0.
Proof. repeat split; vm_compute; try reflexivity; discriminate. Qed.

Lemma move_translates_witness :
  initialised (PlacedGroupContent (Some (PlacedContent_init page page canvas))
                                  [upper; lower]) = true /\
  exists n',
    move (PlacedGroupContent (Some (PlacedContent_init page page canvas))
                             [upper; lower]) 3 4 = Ok n' /\
    moved 3 4 (PlacedGroupContent (Some (PlacedContent_init page page canvas))
                                  [upper; lower]) n'.
Proof.
  split; [reflexivity|].
  apply (move_translates
           (PlacedGroupContent (Some (PlacedContent_init page page canvas))
                               [upper; lower]) 3 4).
  reflexivity.
Defined.

(** C9 as stated fails on the group that [PlacedGroupContent([], page)]
    builds: [move] raises on it. *)
Lemma move_translates_counterexample :
  PlacedGroupContent_init (Some []) page None = Ok (PlacedGroupContent None []) /\
  move (PlacedGroupContent None []) 1 1 = Raise AttributeError.
Proof. split; reflexivity. Qed.

Lemma empty_group_has_no_attributes_witness :
  Forall (fun c => truthy c = false) [None; Some (PlacedGroupContent None [])] /\
  PlacedGroupContent_init (Some [None; Some (PlacedGroupContent None [])]) page None
  = Ok (PlacedGroupContent None []) /\
  move (PlacedGroupContent None []) 1 1 = Raise AttributeError.
Proof.
  assert (H : Forall (fun c => truthy c = false)
                     [None; Some (PlacedGroupContent None [])])
    by (repeat constructor).
  split; [exact H|].
  destruct (empty_group_has_no_attributes _ page None H) as (H1 & _ & _ & _ & H5 & _).
  split; [exact H1 | apply H5].
Defined.

Import Penalties.
Local Open Scope Q_scope.

Lemma error_content_badness_witness :
  let e := PlacedContent_init (mkRect 0 0 500 1000) (mkRect 0 0 500 1000) canvas in
  (0 <= 500 * 1000 < 2 ^ 53)%Z /\
  (4 * 100 * 1000 + 500 * 1000 < 1000000000)%Z /\
  error_from_size (Leaf ErrorContent e) 1000 1 = Ok 999500000 /\
  total_error test_a 1000 1 1000 1 1 = Ok 17 /\
  exists t, total_error test_a 1000 1 1000 1 1 = Ok t /\ t < 999500000.
Proof.
  intros e. split; [lia|]. split; [lia|].
  destruct (error_content_badness e e 1000 1 1000 1 test_a
              (mkAttrs canvas (mkRect 130 100 170 200) (mkRect 130 100 170 200)
                       0 0 0 17 false)
              1000 1 1 100 1000)
    as (H1 & _ & _ & _ & H5).
  { vm_compute. split; [discriminate|reflexivity]. }
  split; [rewrite H1; vm_compute; reflexivity|].
  split; [vm_compute; reflexivity|].
  assert (E : fsub 1000000000 (of_int (width (actual e) * height (actual e)))
              = 999500000) by (vm_compute; reflexivity).
  rewrite <- E. apply H5.
  - reflexivity.
  - reflexivity.
  - unfold within. cbn. lia.
  - split; vm_compute; discriminate.
  - split; vm_compute; discriminate.
  - split; vm_compute; discriminate.
  - split; vm_compute; discriminate.
  - split; vm_compute; discriminate.
  - lia.
  - lia.
  - vm_compute. reflexivity.
Defined.

(** C8 as stated fails without the bounds: an [ErrorContent] of 40000 by
    30000 has the badness [-2e8], below the error 0 of an object that fits
    exactly; and an object that overflows by 1000 under the weight [1e6] has
    the size error [1e9], which no [ErrorContent] exceeds. *)
Lemma error_content_badness_counterexample :
  let big := PlacedContent_init (mkRect 0 0 40000 30000) (mkRect 0 0 40000 30000)
                                canvas in
  let small := PlacedContent_init (mkRect 0 0 10 10) (mkRect 0 0 10 10) canvas in
  error_from_size (Leaf ErrorContent big) 1000 1 = Ok (- 200000000) /\
  total_error upper 1000 1 1000 1 1 = Ok 0 /\
  error_from_size (Leaf ErrorContent small) 1000000 1 = Ok 999999900 /\
  error_from_size (placed (mkRect 0 0 100 10) (- 1000)) 1000000 1 = Ok 1000000000.
Proof. cbv zeta. repeat split; vm_compute; reflexivity. Qed.

End PlacedScenarios.

(** * More on the parameter codec *)

Section CodecBounds.

Import Optimizer.
Local Open Scope Q_scope.

Lemma rnd_nonneg q : 0 <= q -> 0 <= rnd q.
Proof.
  intros H. apply rnd_mono in H. now rewrite (rnd_zero 0) in H by reflexivity.
Qed.

Lemma rnd_le_Z q z : (Z.abs z < 2 ^ 53)%Z -> q <= inject_Z z -> rnd q <= inject_Z z.
Proof.
  intros B H. apply rnd_mono in H. now rewrite rnd_exact_Z in H by exact B.
Qed.

Lemma rnd_ge_Z q z : (Z.abs z < 2 ^ 53)%Z -> inject_Z z <= q -> inject_Z z <= rnd q.
Proof.
  intros B H. apply rnd_mono in H. now rewrite rnd_exact_Z in H by exact B.
Qed.

Lemma int_truediv_unit n d :
  (0 <= n)%Z -> (n <= d)%Z -> (0 < d)%Z ->
  0 <= int_truediv n d /\ int_truediv n d <= 1.
Proof.
  intros H0 H1 H2. unfold int_truediv.
  assert (HD : 0 < inject_Z d) by (rewrite <- (Zlt_Qlt 0); lia).
  split.
  - apply rnd_nonneg. apply Qle_shift_div_l; [exact HD|].
    rewrite Qmult_0_l. rewrite <- (Zle_Qle 0). lia.
  - apply (rnd_le_Z _ 1); [reflexivity|].
    apply Qle_shift_div_r; [exact HD|]. rewrite Qmult_1_l.
    rewrite <- Zle_Qle. lia.
Qed.

Lemma decode_in_bounds (f : float) (lo hi : Z) :
  0 <= f -> f <= 1 -> (- 2 ^ 51 <= lo)%Z -> (lo < hi)%Z -> (hi <= 2 ^ 51)%Z ->
  (lo <= py_round (fadd (of_int lo) (fmul f (of_int (hi - lo)))) <= hi)%Z.
Proof.
  intros F0 F1 H1 H2 H3.
  assert (P51 : (2 ^ 51 = 2251799813685248)%Z) by reflexivity.
  assert (P53 : (2 ^ 53 = 9007199254740992)%Z) by reflexivity.
  unfold py_round, fadd, fmul.
  pose proof (of_int_exact lo ltac:(lia)) as EA.
  pose proof (of_int_exact (hi - lo) ltac:(lia)) as ED.
  assert (HD : 0 < inject_Z (hi - lo)) by (rewrite <- (Zlt_Qlt 0); lia).
  assert (T0 : inject_Z 0 <= rnd (f * of_int (hi - lo))).
  { apply rnd_ge_Z; [reflexivity|]. rewrite ED. change (inject_Z 0) with 0.
    apply Qmult_le_0_compat; lra. }
  assert (T1 : rnd (f * of_int (hi - lo)) <= inject_Z (hi - lo)).
  { apply rnd_le_Z; [lia|]. rewrite ED.
    rewrite <- (Qmult_1_l (inject_Z (hi - lo))) at 2.
    apply Qmult_le_compat_r; lra. }
  change (inject_Z 0) with 0 in T0.
  assert (S0 : inject_Z lo <= rnd (of_int lo + rnd (f * of_int (hi - lo)))).
  { apply rnd_ge_Z; [lia|]. rewrite EA.
    remember (rnd (f * of_int (hi - lo))) as t. unfold float in *. lra. }
  assert (S1 : rnd (of_int lo + rnd (f * of_int (hi - lo))) <= inject_Z hi).
  { apply rnd_le_Z; [lia|]. rewrite EA.
    assert (E : inject_Z hi == inject_Z lo + inject_Z (hi - lo)).
    { rewrite <- inject_Z_plus. now replace (lo + (hi - lo))%Z with hi by lia. }
    remember (rnd (f * of_int (hi - lo))) as t. unfold float in *. lra. }
  apply rhe_mono in S0, S1. rewrite rhe_Z in S0, S1. lia.
Qed.


Lemma to_fraction_unit (x lo hi : Z) :
  (lo <= x)%Z -> (x <= hi)%Z ->
  exists f, _to_fraction x lo hi = Ok f /\ 0 <= f /\ f <= 1.
Proof.
  intros H1 H2. unfold _to_fraction.
  destruct (Z.eqb_spec lo hi) as [E|NE].
  - exists (1 # 2). repeat split; discriminate.
  - destruct (Z.ltb_spec lo hi) as [L|L]; [|lia].
    eexists. split; [reflexivity|]. apply int_truediv_unit; lia.
Qed.

Lemma from_fraction_bounds (f : float) (lo hi : Z) :
  0 <= f -> f <= 1 -> (- 2 ^ 51 <= lo)%Z -> (lo <= hi)%Z -> (hi <= 2 ^ 51)%Z ->
  exists v, _from_fraction f lo hi = Ok v /\ (lo <= v <= hi)%Z.
Proof.
  intros F0 F1 H1 H2 H3. unfold _from_fraction.
  destruct (Z.eqb_spec lo hi) as [E|NE].
  - exists lo. split; [reflexivity|lia].
  - destruct (Z.ltb_spec lo hi) as [L|L]; [|lia].
    eexists. split; [reflexivity|]. now apply decode_in_bounds.
Qed.

Local Close Scope Q_scope.

(** X1: The initial vector lies in the unit box: a parameter set whose values
    are within its bounds is encoded, value by value, as fractions between 0
    and 1. *)
Theorem params2array_in_unit_box (p : OptParams) :
  Forall (fun v => low p <= v <= high p) (value p) ->
  exists x0, _params2array p = Ok x0 /\
             length x0 = length (value p) /\
             Forall (fun f => (0 <= f)%Q /\ (f <= 1)%Q) x0.
Proof.
  unfold _params2array. generalize (low p) (high p). intros lo hi.
  induction 1 as [|v vs Hv _ IH]; cbn.
  - exists []. repeat split. constructor.
  - destruct (to_fraction_unit v lo hi) as (f & Hf & F0 & F1); [lia..|].
    destruct IH as (x0 & Hx & Hlen & Hall). rewrite Hf, Hx.
    exists (f :: x0). split; [reflexivity|]. split; [cbn; now rewrite Hlen|].
    constructor; [split; assumption | exact Hall].
Qed.

Lemma params2array_in_unit_box_witness :
  Forall (fun v => 0 <= v <= 10) [0; 7; 10] /\
  exists x0, _params2array (mkOptParams [0; 7; 10] 0 10) = Ok x0 /\
             length x0 = 3%nat /\
             Forall (fun f => (0 <= f)%Q /\ (f <= 1)%Q) x0.
Proof.
  assert (H : Forall (fun v => 0 <= v <= 10) [0; 7; 10])
    by (repeat constructor; lia).
  split; [exact H|].
  apply (params2array_in_unit_box (mkOptParams [0; 7; 10] 0 10)). exact H.
Defined.

(** X2: Whatever point of the unit box the minimizer tries or returns, it is
    decoded into integers within the bounds of the parameter set (for
    bounds within [-2^51, 2^51]); the decoded set keeps the bounds and has
    one value for each coordinate. *)
Theorem array2params_in_bounds (x : list float) (base : OptParams) :
  Forall (fun f => (0 <= f)%Q /\ (f <= 1)%Q) x ->
  - 2 ^ 51 <= low base -> low base <= high base -> high base <= 2 ^ 51 ->
  exists p, _array2params x base = Ok p /\
            low p = low base /\ high p = high base /\
            length (value p) = length x /\
            Forall (fun v => low base <= v <= high base) (value p).
Proof.
  intros Hx H1 H2 H3. unfold _array2params, _array2tuple.
  assert (G : exists t, mapM (fun v => _from_fraction v (low base) (high base)) x = Ok t /\
                        length t = length x /\
                        Forall (fun v => low base <= v <= high base) t).
  { induction Hx as [|f fs [F0 F1] _ IH]; cbn.
    - exists []. repeat split. constructor.
    - destruct (from_fraction_bounds f (low base) (high base)) as (v & Hv & Hb);
        [assumption..|].
      destruct IH as (t & Ht & Hlen & Hall). rewrite Hv, Ht.
      exists (v :: t). split; [reflexivity|]. split; [cbn; now rewrite Hlen|].
      now constructor. }
  destruct G as (t & Ht & Hlen & Hall). rewrite Ht. cbn.
  eexists. split; [reflexivity|]. cbn. repeat split; assumption.
Qed.

Lemma array2params_in_bounds_witness :
  Forall (fun f => (0 <= f)%Q /\ (f <= 1)%Q) [0%Q; (1 # 3)%Q; 1%Q] /\
  exists p, _array2params [0%Q; (1 # 3)%Q; 1%Q] (mkOptParams [5] (-4) 10) = Ok p /\
            low p = -4 /\ high p = 10 /\
            length (value p) = 3%nat /\
            Forall (fun v => -4 <= v <= 10) (value p).
Proof.
  assert (H : Forall (fun f => (0 <= f)%Q /\ (f <= 1)%Q) [0%Q; (1 # 3)%Q; 1%Q])
    by (repeat constructor; discriminate).
  split; [exact H|].
  apply (array2params_in_bounds [0%Q; (1 # 3)%Q; 1%Q] (mkOptParams [5] (-4) 10));
    [exact H | cbn; lia..].
Defined.

(** X3: Encoding a parameter set and decoding the result gives the set back, when
    its values are within its bounds and the bounds within [-2^49, 2^49]. *)
Theorem params_round_trip (p : OptParams) :
  Forall (fun v => low p <= v <= high p) (value p) ->
  - 2 ^ 49 <= low p -> high p <= 2 ^ 49 ->
  (_params2array p ≫= fun x => _array2params x p) = Ok p.
Proof.
  destruct p as [vs lo hi]. cbn [value low high]. intros Hv H1 H2.
  unfold _params2array, _array2params, _array2tuple. cbn [value low high].
  assert (G : forall vs, Forall (fun v => lo <= v <= hi) vs ->
              (mapM (fun v => _to_fraction v lo hi) vs
                 ≫= fun x => mapM (fun v => _from_fraction v lo hi) x) = Ok vs).
  { clear vs Hv. induction 1 as [|v vs Hv _ IH]; [reflexivity|]. cbn.
    unfold _to_fraction in *. unfold _from_fraction in *.
    destruct (Z.eqb_spec lo hi) as [E|NE].
    - destruct (mapM _ vs) as [x|] eqn:Ex; [|discriminate]. cbn in IH |- *.
      rewrite IH. f_equal. f_equal. lia.
    - destruct (Z.ltb_spec lo hi) as [L|L]; [|lia].
      destruct (mapM _ vs) as [x|] eqn:Ex; [|discriminate]. cbn in IH |- *.
      rewrite IH. f_equal. f_equal. apply round_trip_lt; lia. }
  specialize (G vs Hv).
  destruct (mapM (fun v => _to_fraction v lo hi) vs) as [x|]; [|discriminate].
  cbn in G |- *. now rewrite G.
Qed.

Lemma params_round_trip_witness :
  Forall (fun v => 0 <= v <= 10) [3; 7] /\
  (_params2array (mkOptParams [3; 7] 0 10)
     ≫= fun x => _array2params x (mkOptParams [3; 7] 0 10))
  = Ok (mkOptParams [3; 7] 0 10).
Proof.
  assert (H : Forall (fun v => 0 <= v <= 10) [3; 7]) by (repeat constructor; lia).
  split; [exact H|].
  apply (params_round_trip (mkOptParams [3; 7] 0 10)); [exact H | cbn; lia..].
Defined.

(** X4: Bounds in the wrong order raise [ValueError] from both directions of the
    codec as soon as there is a value to convert; a set without values and a
    vector without coordinates pass, whatever the bounds. *)
Theorem codec_rejects_reversed_bounds (p : OptParams) (x : list float) :
  high p < low p ->
  (value p <> [] -> _params2array p = Raise ValueError) /\
  (x <> [] -> _array2params x p = Raise ValueError) /\
  _params2array (mkOptParams [] (low p) (high p)) = Ok [] /\
  _array2params [] p = Ok (mkOptParams [] (low p) (high p)).
Proof.
  intros H.
  assert (E : (low p =? high p) = false) by (apply Z.eqb_neq; lia).
  assert (L : (low p <? high p) = false) by (apply Z.ltb_ge; lia).
  repeat split.
  - intros Hne. unfold _params2array. destruct (value p) as [|v vs]; [contradiction|].
    cbn. unfold _to_fraction. now rewrite E, L.
  - intros Hne. unfold _array2params, _array2tuple. destruct x as [|f fs]; [contradiction|].
    cbn. unfold _from_fraction. now rewrite E, L.
Qed.

Lemma codec_rejects_reversed_bounds_witness :
  5 < 9 /\
  _params2array (mkOptParams [7] 9 5) = Raise ValueError /\
  _array2params [(1 # 2)%Q] (mkOptParams [7] 9 5) = Raise ValueError.
Proof.
  split; [lia|].
  destruct (codec_rejects_reversed_bounds (mkOptParams [7] 9 5) [(1 # 2)%Q])
    as (H1 & H2 & _); [cbn; lia|].
  split; [apply H1 | apply H2]; discriminate.
Defined.

Local Open Scope Q_scope.

(** X5: The penalty of an invalid trial is never below [1e6], whatever the
    validity error is. *)
Theorem penalty_at_least_1e6 (err : float) : 1000000 <= penalty err.
Proof.
  unfold penalty, fmul, fadd.
  assert (S : 0 <= err * err) by (unfold float in *; nra).
  apply rnd_nonneg in S.
  assert (A : inject_Z 1 <= rnd (1 + rnd (err * err))).
  { apply rnd_ge_Z; [reflexivity|]. change (inject_Z 1) with 1.
    remember (rnd (err * err)) as t. unfold float in *. lra. }
  change (inject_Z 1) with 1 in A.
  change 1000000 with (inject_Z 1000000) at 1.
  apply rnd_ge_Z; [reflexivity|]. change (inject_Z 1000000) with 1000000.
  remember (rnd (1 + rnd (err * err))) as u. unfold float in *. lra.
Qed.

End CodecBounds.

(** * Invariants of the two-stage optimizer *)

Section OptimizerInvariants.

Import Optimizer OptimizerLog.

Context `{P : OptimizeProblem}.
Variable minimize : list float -> minimizer.

Ltac unfold_monad :=
  unfold mbind, M_bind, mret, M_ret, lift, raise, emit, store, fresh_combos,
    lookup_combo in *;
  cbn [fst snd best_combos calls] in *.

Lemma drive_stage2_log (params1 : list Z) (p2 : OptParams) (m : minimizer) :
  stage2parameters params1 = Some p2 ->
  fltb 0%Q (validity_error (Some p2)) = false ->
  forall s r s',
  drive m (adapter (stage2func params1 p2) p2) s = (r, s') ->
  exists evs, calls s' = calls s ++ evs /\ Forall (gated_score_call params1) evs.
Proof.
  intros Hp2 Hv. induction m as [y k IH|r0|e]; intros s r s' H; cbn in H.
  - unfold_monad. unfold adapter in H. unfold_monad.
    destruct (_array2tuple y p2) as [t|e].
    + unfold stage2func in H at 1. unfold_monad.
      destruct (fltb 0%Q (validity_error (Some (mkOptParams t (low p2) (high p2)))))
        eqn:Hg.
      * apply IH in H. exact H.
      * apply IH in H. destruct H as (evs & Hc & Hall). cbn in Hc.
        exists (ScoreCall params1 t :: evs). split.
        -- rewrite Hc, <- app_assoc. reflexivity.
        -- constructor; [|exact Hall]. exists p2, t. auto.
    + injection H as <- <-. exists []. split; [now rewrite app_nil_r|constructor].
  - unfold_monad. injection H as <- <-. exists []. split; [now rewrite app_nil_r|constructor].
  - unfold_monad. injection H as <- <-. exists []. split; [now rewrite app_nil_r|constructor].
Qed.

Lemma _stage2optimize_log (params1 : list Z) (s : state)
    (r : res (option float * option OptParams)) (s' : state) :
  _stage2optimize minimize params1 s = (r, s') ->
  exists evs, calls s' = calls s ++ Stage2Call params1 :: evs /\
              Forall (gated_score_call params1) evs.
Proof.
  unfold _stage2optimize. unfold_monad.
  destruct (fltb 0%Q (validity_error (stage2parameters params1))) eqn:Hv.
  - intros H. injection H as <- <-. exists []. split; [reflexivity|constructor].
  - destruct (stage2parameters params1) as [p2|] eqn:Hp2.
    + unfold _minimize. unfold_monad.
      destruct (_params2array p2) as [x0|e].
      * destruct (drive (minimize x0) (adapter (stage2func params1 p2) p2) _)
          as [ro s1] eqn:Hd.
        apply (drive_stage2_log params1 p2 _ Hp2 Hv) in Hd.
        destruct Hd as (evs & Hc & Hall). cbn in Hc.
        intros H. exists evs. split; [|exact Hall].
        destruct ro as [o|e].
        -- destruct (success o); [destruct (_array2params _ _)|];
             injection H as <- <-; now rewrite Hc, <- app_assoc.
        -- injection H as <- <-. now rewrite Hc, <- app_assoc.
      * intros H. injection H as <- <-. exists []. split; [reflexivity|constructor].
    + intros H. injection H as <- <-. exists []. split; [reflexivity|constructor].
Qed.


(** X6: The validity gate: whatever [_stage2optimize] does for a coarse trial, and
    however it ends, it logs its own start and after that only calls of
    [score] for that coarse trial and for fine trials that are not invalid,
    made after a first fine guess that was not invalid. *)
Theorem score_called_only_on_valid_trials (params1 : list Z) (s : state)
    (r : res (option float * option OptParams)) (s' : state) :
  _stage2optimize minimize params1 s = (r, s') ->
  exists evs, calls s' = calls s ++ Stage2Call params1 :: evs /\
              Forall (gated_score_call params1) evs.
Proof. apply _stage2optimize_log. Qed.

Lemma gated_not_stage2 (params1 t : list Z) (evs : list event) :
  Forall (gated_score_call params1) evs -> Stage2Call t ∉ evs.
Proof.
  intros Hall Hin. rewrite Forall_forall in Hall.
  destruct (Hall _ Hin) as (p2 & x2 & E & _). discriminate.
Qed.

Lemma _stage2optimize_frame (params1 : list Z) (s : state)
    (r : res (option float * option OptParams)) (s' : state) :
  _stage2optimize minimize params1 s = (r, s') -> best_combos s' = best_combos s.
Proof.
  assert (D : forall m func x_init,
    (forall t s r s', func t s = (r, s') -> best_combos s' = best_combos s) ->
    forall s r s', drive m (adapter func x_init) s = (r, s') ->
                   best_combos s' = best_combos s).
  { intros m func x_init Hf. induction m as [y k IH|r0|e]; intros s0 r1 s1 H; cbn in H.
    - unfold_monad. unfold adapter in H at 1. unfold_monad.
      destruct (_array2tuple y x_init) as [t|e].
      + destruct (func t s0) as [[v|e] s2] eqn:E; apply Hf in E.
        * apply IH in H. congruence.
        * injection H as <- <-. exact E.
      + now injection H as <- <-.
    - unfold_monad. now injection H as <- <-.
    - unfold_monad. now injection H as <- <-. }
  unfold _stage2optimize. unfold_monad.
  destruct (fltb _ _); [intros H; now injection H as <- <-|].
  destruct (stage2parameters params1) as [p2|]; [|intros H; now injection H as <- <-].
  unfold _minimize. unfold_monad.
  destruct (_params2array p2) as [x0|e]; [|intros H; now injection H as <- <-].
  destruct (drive _ _ _) as [ro s1] eqn:Hd. apply D in Hd.
  - cbn in Hd. intros H. destruct ro as [o|e].
    + destruct (success o); [destruct (_array2params _ _)|]; injection H as <- <-; exact Hd.
    + injection H as <- <-. exact Hd.
  - intros t s0 r0 s0'. unfold stage2func. unfold_monad.
    destruct (fltb _ _); intros H; now injection H as <- <-.
Qed.

(** X7: What [stage1func] returns for a coarse trial is the score it stored under
    that trial; every other entry of the dictionary is left as it was. *)
Theorem stage1func_stores_what_it_returns (params1 : list Z) (s : state)
    (v : option float) (s' : state) :
  stage1func minimize params1 s = (Ok v, s') ->
  (exists params2, best_combos s' !! params1 = Some (v, params2)) /\
  (forall k, k <> params1 -> best_combos s' !! k = best_combos s !! k).
Proof.
  unfold stage1func. unfold_monad.
  destruct (_stage2optimize minimize params1 s) as [[[f p2]|e] s1] eqn:E; [|discriminate].
  apply _stage2optimize_frame in E. intros H. injection H as <- <-. cbn. split.
  - exists p2. apply lookup_insert_eq.
  - intros k Hk. rewrite lookup_insert_ne by congruence. now rewrite E.
Qed.

Lemma drive_stage1_keys (x1init : OptParams) (l0 : list event) (m : minimizer) :
  forall s r s' evs0,
  calls s = l0 ++ evs0 ->
  (forall t, is_Some (best_combos s !! t) <-> Stage2Call t ∈ evs0) ->
  drive m (adapter (stage1func minimize) x1init) s = (Ok r, s') ->
  exists evs, calls s' = l0 ++ evs /\
              forall t, is_Some (best_combos s' !! t) <-> Stage2Call t ∈ evs.
Proof.
  induction m as [y k IH|r0|e]; intros s r s' evs0 Hc Hk H; cbn in H.
  - unfold_monad. unfold adapter in H at 1. unfold_monad.
    destruct (_array2tuple y x1init) as [t|e]; [|discriminate].
    unfold stage1func in H at 1. unfold_monad.
    destruct (_stage2optimize minimize t s) as [[[f p2]|e] s1] eqn:E; [|discriminate].
    pose proof (_stage2optimize_frame _ _ _ _ E) as Hf.
    destruct (_stage2optimize_log _ _ _ _ E) as (evs2 & Hc2 & Hall).
    eapply (IH _ _ _ _ (evs0 ++ Stage2Call t :: evs2)); [| |exact H].
    + cbn. rewrite Hc2, Hc, <- app_assoc. reflexivity.
    + intros t'. cbn. rewrite Hf, lookup_insert_is_Some', Hk.
      rewrite elem_of_app, elem_of_cons.
      pose proof (gated_not_stage2 t t' evs2 Hall) as Hn.
      split.
      * intros [->|Hin]; [right; now left | now left].
      * intros [Hin|[Heq|Hin]]; [now right | left; congruence | contradiction].
  - unfold_monad. injection H as <- <-. now exists evs0.
  - unfold_monad. discriminate.
Qed.

(** X8: When [run] does not raise, the dictionary it leaves holds an entry for
    exactly the coarse trials that stage 2 was started on during the call. *)
Theorem best_combos_keys_are_the_coarse_trials (x1init : OptParams) (s : state)
    (result : option float * option OptParams * option OptParams) (s' : state) :
  run minimize x1init s = (Ok result, s') ->
  exists evs, calls s' = calls s ++ evs /\
              forall t, is_Some (best_combos s' !! t) <-> Stage2Call t ∈ evs.
Proof.
  unfold run, _minimize. unfold_monad.
  destruct (_params2array x1init) as [x0|e]; [|discriminate].
  destruct (drive _ _ _) as [[r|e] s1] eqn:Hd; [|discriminate].
  apply (drive_stage1_keys x1init (calls s) _ _ _ _ []) in Hd.
  - destruct Hd as (evs & Hc & Hk). intros H.
    assert (E : s' = s1).
    { destruct (success r).
      - destruct (_array2params (x r) x1init) as [p|]; [|discriminate].
        destruct (truthy (Some p)); [|now injection H as _ <-].
        destruct (best_combos s1 !! value p) as [[f o2]|]; [|discriminate].
        now injection H as _ <-.
      - now injection H as _ <-. }
    subst s'. now exists evs.
  - cbn. now rewrite app_nil_r.
  - intros t. cbn. rewrite lookup_empty. split.
    + intros [v Hv]. discriminate.
    + intros Hin. now apply elem_of_nil in Hin.
Qed.

(** X9: A missing key: when the minimizer reports success with a vector that
    decodes to a coarse tuple on which stage 2 was never started, [run]
    raises [KeyError]. *)
Theorem run_raises_KeyError_on_untried_optimum (x1init : OptParams) (s : state)
    (x0 : list float) (r : OptimizeResult) (s' : state) (opt1 : OptParams) :
  _params2array x1init = Ok x0 ->
  drive (minimize x0) (adapter (stage1func minimize) x1init)
        (mkState ∅ (calls s)) = (Ok r, s') ->
  success r = true ->
  _array2params (x r) x1init = Ok opt1 ->
  value opt1 <> [] ->
  Stage2Call (value opt1) ∉ drop (length (calls s)) (calls s') ->
  run minimize x1init s = (Raise KeyError, s').
Proof.
  intros Hx0 Hd Hr Hp Hne Hnot.
  pose proof Hd as Hd'.
  apply (drive_stage1_keys x1init (calls s) _ _ _ _ []) in Hd'.
  2:{ cbn. now rewrite app_nil_r. }
  2:{ intros t. cbn. rewrite lookup_empty. split.
      - intros [v Hv]. discriminate.
      - intros Hin. now apply elem_of_nil in Hin. }
  destruct Hd' as (evs & Hc & Hk).
  rewrite Hc, drop_app_length in Hnot.
  assert (Hl : best_combos s' !! value opt1 = None).
  { destruct (best_combos s' !! value opt1) eqn:E; [|reflexivity].
    exfalso. apply Hnot, Hk. rewrite E. eauto. }
  unfold run, _minimize. unfold_monad. rewrite Hx0. cbn. rewrite Hd, Hr, Hp.
  unfold truthy, len. destruct (value opt1) as [|v vs] eqn:Ev; [contradiction|].
  cbn. now rewrite Hl.
Qed.

(** X10: An [OptParams] without values is false: when the minimizer reports
    success with a vector of no coordinates, [run] returns the triple of
    [None] as if the minimization had failed. *)
Theorem run_on_no_parameters (x1init : OptParams) (s : state)
    (x0 : list float) (r : OptimizeResult) (s' : state) :
  _params2array x1init = Ok x0 ->
  drive (minimize x0) (adapter (stage1func minimize) x1init)
        (mkState ∅ (calls s)) = (Ok r, s') ->
  success r = true ->
  x r = [] ->
  run minimize x1init s = (Ok (None, None, None), s').
Proof.
  intros Hx0 Hd Hr Hx. unfold run, _minimize. unfold_monad.
  rewrite Hx0. cbn. rewrite Hd, Hr, Hx. reflexivity.
Qed.

(** X11: Bounds in the wrong order end [run] with [ValueError] before the
    objective is evaluated: the dictionary is empty and no hook was called. *)
Theorem run_rejects_reversed_bounds (x1init : OptParams) (s : state) :
  high x1init < low x1init -> value x1init <> [] ->
  run minimize x1init s = (Raise ValueError, mkState ∅ (calls s)).
Proof.
  intros H Hne. unfold run, _minimize. unfold_monad.
  assert (E : _params2array x1init = Raise ValueError).
  { unfold _params2array. destruct (value x1init) as [|v vs]; [contradiction|].
    cbn. unfold _to_fraction.
    replace (low x1init =? high x1init) with false by (symmetry; apply Z.eqb_neq; lia).
    replace (low x1init <? high x1init) with false by (symmetry; apply Z.ltb_ge; lia).
    reflexivity. }
  now rewrite E.
Qed.

Lemma _stage2optimize_scored (params1 : list Z) (s : state)
    (e : option float * option OptParams) (s' : state) :
  _stage2optimize minimize params1 s = (Ok e, s') -> scored e.
Proof.
  unfold _stage2optimize. unfold_monad.
  destruct (fltb _ _).
  - intros H. injection H as <- <-. intros [p Hp]. discriminate.
  - destruct (stage2parameters params1) as [p2|]; [|discriminate].
    unfold _minimize. unfold_monad.
    destruct (_params2array p2) as [x0|]; [|discriminate].
    destruct (drive _ _ _) as [[o|] s1]; [|discriminate].
    destruct (success o).
    + destruct (_array2params _ _); [|discriminate].
      intros H. injection H as <- <-. intros _. cbn. eauto.
    + intros H. injection H as <- <-. intros [p Hp]. discriminate.
Qed.

Lemma drive_stage1_scored (x1init : OptParams) (m : minimizer) :
  forall s r s',
  map_Forall (fun _ e => scored e) (best_combos s) ->
  drive m (adapter (stage1func minimize) x1init) s = (Ok r, s') ->
  map_Forall (fun _ e => scored e) (best_combos s').
Proof.
  induction m as [y k IH|r0|e]; intros s r s' Hall H; cbn in H.
  - unfold_monad. unfold adapter in H at 1. unfold_monad.
    destruct (_array2tuple y x1init) as [t|e]; [|discriminate].
    unfold stage1func in H at 1. unfold_monad.
    destruct (_stage2optimize minimize t s) as [[[f p2]|e] s1] eqn:E; [|discriminate].
    pose proof (_stage2optimize_frame _ _ _ _ E) as Hf.
    apply _stage2optimize_scored in E.
    eapply IH; [|exact H]. cbn. rewrite Hf.
    apply map_Forall_insert_2; assumption.
  - unfold_monad. now injection H as <- <-.
  - unfold_monad. discriminate.
Qed.

(** X12: What [run] returns goes together: without coarse parameters there is no
    score and there are no fine parameters, and with fine parameters there is
    a score. *)
Theorem run_result_goes_together (x1init : OptParams) (s : state)
    (f : option float) (opt1 opt2 : option OptParams) (s' : state) :
  run minimize x1init s = (Ok (f, opt1, opt2), s') ->
  (opt1 = None -> f = None /\ opt2 = None) /\
  (is_Some opt2 -> is_Some f /\ is_Some opt1).
Proof.
  unfold run, _minimize. unfold_monad.
  destruct (_params2array x1init) as [x0|e]; [|discriminate].
  destruct (drive _ _ _) as [[r|e] s1] eqn:Hd; [|discriminate].
  apply drive_stage1_scored in Hd; [|cbn; apply map_Forall_empty].
  destruct (success r).
  - destruct (_array2params (x r) x1init) as [p|]; [|discriminate].
    destruct (truthy (Some p)).
    + destruct (best_combos s1 !! value p) as [[f0 o2]|] eqn:El; [|discriminate].
      intros H. injection H as <- <- <- <-.
      split; [discriminate|]. intros Ho. split; [|eauto].
      exact (Hd _ _ El Ho).
    + intros H. injection H as <- <- <- <-.
      split; [auto|]. intros [q Hq]. discriminate.
  - intros H. injection H as <- <- <- <-.
    split; [auto|]. intros [q Hq]. discriminate.
Qed.

End OptimizerInvariants.

(** * The optimum that [run] returns *)

Section OptimizerOptimum.

Import Optimizer.

Context `{P : OptimizeProblem}.
Variable minimize : list float -> minimizer.









End OptimizerOptimum.

Section OptimizerOptimumScenarios.

Import Optimizer Scenarios Searches.



End OptimizerOptimumScenarios.

(** * The occupancy strip *)

Section StripFacts.

Import Placed Strip.

Lemma range_nil (lo hi : Z) : hi <= lo -> range lo hi = [].
Proof.
  intros H. unfold range. replace (Z.to_nat (hi - lo)) with 0%nat by lia. reflexivity.
Qed.

Lemma range_cons (lo hi : Z) : lo < hi -> range lo hi = lo :: range (lo + 1) hi.
Proof.
  intros H. unfold range.
  replace (Z.to_nat (hi - lo)) with (S (Z.to_nat (hi - (lo + 1)))) by lia.
  cbn [seq map]. f_equal; [lia|].
  rewrite <- seq_shift, map_map. apply map_ext. intros k. lia.
Qed.

Lemma range_induction (Q : Z -> Z -> Prop) :
  (forall lo hi, hi <= lo -> Q lo hi) ->
  (forall lo hi, lo < hi -> Q (lo + 1) hi -> Q lo hi) ->
  forall lo hi, Q lo hi.
Proof.
  intros Hnil Hcons lo hi.
  remember (Z.to_nat (hi - lo)) as n eqn:En. revert lo En.
  induction n as [|n IH]; intros lo En.
  - apply Hnil. lia.
  - apply Hcons; [lia|]. apply IH. lia.
Qed.

Lemma bytearray_set_inside (used : list Z) (i v : Z) :
  0 <= i < Z.of_nat (length used) ->
  bytearray_set used i v = Ok (<[Z.to_nat i := v]> used).
Proof.
  intros H. unfold bytearray_set.
  destruct (Z.leb_spec 0 i); [|lia]. destruct (Z.ltb_spec i (Z.of_nat (length used))); [|lia].
  reflexivity.
Qed.

(** Marking the columns [lo .. hi - 1], all inside the array. *)
Lemma mark_range_inside (lo hi : Z) :
  forall used : list Z,
  0 <= lo -> hi <= Z.of_nat (length used) ->
  exists used',
    foldM (fun u i => bytearray_set u i 1) (range lo hi) used = Ok used' /\
    length used' = length used /\
    forall c : nat,
      used' !! c = if (lo <=? Z.of_nat c) && (Z.of_nat c <? hi)
                   then (fun _ => 1) <$> used !! c else used !! c.
Proof.
  revert lo hi. apply (range_induction (fun lo hi => forall used : list Z,
    0 <= lo -> hi <= Z.of_nat (length used) ->
    exists used',
      foldM (fun u i => bytearray_set u i 1) (range lo hi) used = Ok used' /\
      length used' = length used /\
      forall c : nat,
        used' !! c = if (lo <=? Z.of_nat c) && (Z.of_nat c <? hi)
                     then (fun _ => 1) <$> used !! c else used !! c)).
  - intros lo hi H used H0 H1. rewrite range_nil by exact H. exists used.
    split; [reflexivity|]. split; [reflexivity|]. intros c.
    destruct (Z.leb_spec lo (Z.of_nat c)); destruct (Z.ltb_spec (Z.of_nat c) hi);
      cbn; try reflexivity. lia.
  - intros lo hi H IH used H0 H1. rewrite range_cons by exact H. cbn [foldM].
    rewrite bytearray_set_inside by lia.
    destruct (IH (<[Z.to_nat lo := 1]> used)) as (used' & Hf & Hlen & Hget);
      [lia | rewrite length_insert; lia |].
    exists used'. split; [exact Hf|]. split; [now rewrite Hlen, length_insert|].
    intros c. rewrite Hget.
    destruct (decide (c = Z.to_nat lo)) as [->|Hne].
    + rewrite list_lookup_insert_eq by lia.
      destruct (Z.leb_spec (lo + 1) (Z.of_nat (Z.to_nat lo))); [lia|].
      destruct (Z.leb_spec lo (Z.of_nat (Z.to_nat lo))); [|lia].
      destruct (Z.ltb_spec (Z.of_nat (Z.to_nat lo)) hi); [|lia]. cbn.
      destruct (used !! Z.to_nat lo) eqn:E; [reflexivity|].
      apply lookup_ge_None in E. lia.
    + rewrite list_lookup_insert_ne by congruence.
      destruct (Z.leb_spec (lo + 1) (Z.of_nat c)); destruct (Z.leb_spec lo (Z.of_nat c));
        try lia; try reflexivity.
Qed.


Lemma range_lookup (w : Z) (c : nat) :
  (c < Z.to_nat w)%nat -> range 0 w !! c = Some (Z.of_nat c).
Proof.
  intros H. unfold range. rewrite list_lookup_fmap.
  replace (w - 0) with w by lia. rewrite lookup_seq_lt by exact H. reflexivity.
Qed.

Lemma length_range (lo hi : Z) : length (range lo hi) = Z.to_nat (hi - lo).
Proof. unfold range. now rewrite length_map, length_seq. Qed.

(** The loop over the children, started on an array that shows what the
    children [done] cover. *)
Lemma strip_fold (bounds : Rect) (group : list PlacedContent) :
  forall (children done : list attrs) (used : list Z),
  mapM get_attrs group = Ok children ->
  Forall (inside bounds) children ->
  0 <= width bounds ->
  used = map (fun c => if existsb (fun a => covers (left bounds) a c) done
                       then 1 else 0) (range 0 (width bounds)) ->
  foldM (fun used g =>
           match get_attrs g with
           | Ok a =>
               foldM (fun used i => bytearray_set used i 1)
                     (range (left (requested a) + unused_width a / 2 - left bounds)
                            (right (requested a) - unused_width a
                             + unused_width a / 2 - left bounds)) used
           | Raise e => Raise e
           end) group used
  = Ok (map (fun c => if existsb (fun a => covers (left bounds) a c) (done ++ children)
                      then 1 else 0) (range 0 (width bounds))).
Proof.
  induction group as [|g group IH]; intros children done used Hm Hin Hw Hu; cbn in Hm.
  - injection Hm as <-. rewrite app_nil_r. cbn. now rewrite Hu.
  - destruct (get_attrs g) as [a|] eqn:Ea; [|discriminate].
    destruct (mapM get_attrs group) as [rest|] eqn:Er; [|discriminate].
    injection Hm as <-. inversion Hin as [|? ? Ha Hrest]; subst.
    cbn [foldM]. rewrite Ea.
    destruct Ha as [Hl Hr]. unfold footprint in Hl, Hr. cbn [fst snd] in Hl, Hr.
    set (lo := left (requested a) + unused_width a / 2 - left bounds).
    set (hi := right (requested a) - unused_width a + unused_width a / 2 - left bounds).
    set (used0 := map _ (range 0 (width bounds))).
    assert (Hlen0 : length used0 = Z.to_nat (width bounds)).
    { unfold used0. rewrite length_map, length_range. f_equal. lia. }
    destruct (mark_range_inside lo hi used0) as (used' & Hf & Hlen & Hget).
    { unfold lo. lia. }
    { rewrite Hlen0. unfold hi, width in *. lia. }
    rewrite Hf.
    rewrite (IH rest (done ++ [a]) used' eq_refl Hrest Hw).
    + now rewrite <- app_assoc.
    + apply list_eq. intros c. rewrite Hget. unfold used0.
      rewrite !list_lookup_fmap.
      destruct (decide (c < Z.to_nat (width bounds))%nat) as [Hc|Hc].
      * rewrite range_lookup by exact Hc. cbn.
        rewrite existsb_app. cbn [existsb]. rewrite orb_false_r.
        assert (Hcov : covers (left bounds) a (Z.of_nat c)
                       = (lo <=? Z.of_nat c) && (Z.of_nat c <? hi)) by reflexivity.
        rewrite Hcov.
        destruct ((lo <=? Z.of_nat c) && (Z.of_nat c <? hi)); cbn.
        -- now rewrite orb_true_r.
        -- now rewrite orb_false_r.
      * rewrite (proj2 (lookup_ge_None (range 0 (width bounds)) c))
          by (rewrite length_range; lia).
        cbn. now destruct (_ && _).
Qed.

Lemma foldM_invariant {A B : Type} (I : B -> Prop) (f : B -> A -> res B) (l : list A) :
  (forall b a b', I b -> f b a = Ok b' -> I b') ->
  forall b b', I b -> foldM f l b = Ok b' -> I b'.
Proof.
  intros Hf. induction l as [|a l IH]; intros b b' Hb H; cbn in H.
  - now injection H as <-.
  - destruct (f b a) as [b1|] eqn:E; [|discriminate].
    eapply IH; [|exact H]. eapply Hf; eassumption.
Qed.

Lemma bytearray_set_bits (n : nat) (used : list Z) (i : Z) (used' : list Z) :
  bits n used -> bytearray_set used i 1 = Ok used' -> bits n used'.
Proof.
  intros [Hlen Hall] H. unfold bytearray_set in H.
  destruct (_ && _).
  - injection H as <-. split; [now rewrite length_insert|].
    apply Forall_insert; [exact Hall|lia].
  - destruct (_ && _); [|discriminate].
    injection H as <-. split; [now rewrite length_insert|].
    apply Forall_insert; [exact Hall|lia].
Qed.

Lemma sum_bits (n : nat) (used : list Z) :
  bits n used -> 0 <= sum used <= Z.of_nat n.
Proof.
  intros [Hlen Hall]. subst n. induction Hall as [|b l Hb _ IH]; cbn; [lia|].
  unfold sum in IH. lia.
Qed.

Lemma strip_range (group : list PlacedContent) (bounds : Rect) (u : Z) :
  _unused_horizontal_strip group bounds = Ok u -> 0 <= u <= width bounds.
Proof.
  unfold _unused_horizontal_strip. cbv zeta.
  destruct (Z.ltb_spec (width bounds) 0) as [H|Hw]; [discriminate|].
  destruct (foldM _ group _) as [used|] eqn:E; [|discriminate].
  intros H. injection H as <-.
  apply (foldM_invariant (bits (Z.to_nat (width bounds)))) in E.
  - apply sum_bits in E. lia.
  - intros b g b' Hb Hg. destruct (get_attrs g) as [a|]; [|discriminate].
    eapply (foldM_invariant (bits (Z.to_nat (width bounds)))); [|exact Hb|exact Hg].
    intros b0 i b1 Hb0. apply bytearray_set_bits. exact Hb0.
  - split; [apply repeat_length|]. apply Forall_forall. intros b Hb.
    apply list_elem_of_In, repeat_spec in Hb. lia.
Qed.

Lemma strip_value (group : list PlacedContent) (children : list attrs)
    (bounds : Rect) :
  mapM get_attrs group = Ok children ->
  Forall (inside bounds) children ->
  0 <= width bounds ->
  _unused_horizontal_strip group bounds
  = Ok (width bounds - covered_columns bounds children).
Proof.
  intros Hm Hin Hw. unfold _unused_horizontal_strip. cbv zeta.
  destruct (Z.ltb_spec (width bounds) 0) as [H|_]; [lia|].
  rewrite (strip_fold bounds group children [] _ Hm Hin Hw).
  - reflexivity.
  - cbn [existsb]. rewrite map_const, length_range. f_equal. lia.
Qed.

(** X13: With every footprint inside the bounds, the unused width of a strip is
    the number of columns of the bounds that are under no footprint. *)
Theorem strip_counts_uncovered_columns (group : list PlacedContent)
    (children : list attrs) (bounds : Rect) :
  mapM get_attrs group = Ok children ->
  Forall (inside bounds) children ->
  0 <= width bounds ->
  _unused_horizontal_strip group bounds
  = Ok (width bounds - covered_columns bounds children).
Proof.
  intros Hm Hin Hw. unfold _unused_horizontal_strip. cbv zeta.
  destruct (Z.ltb_spec (width bounds) 0) as [H|_]; [lia|].
  rewrite (strip_fold bounds group children [] _ Hm Hin Hw).
  - reflexivity.
  - cbn [existsb]. rewrite map_const, length_range. f_equal. lia.
Qed.


Lemma count_interval (lo hi : Z) :
  forall a b,
  sum (map (fun c => if (lo <=? c) && (c <? hi) then 1 else 0) (range a b))
  = Z.max 0 (Z.min hi b - Z.max lo a).
Proof.
  apply (range_induction (fun a b =>
    sum (map (fun c => if (lo <=? c) && (c <? hi) then 1 else 0) (range a b))
    = Z.max 0 (Z.min hi b - Z.max lo a))).
  - intros a b H. rewrite range_nil by exact H. cbn. lia.
  - intros a b H IH. rewrite range_cons by exact H. cbn [map sum fold_right].
    fold (sum (map (fun c => if (lo <=? c) && (c <? hi) then 1 else 0) (range (a + 1) b))).
    rewrite IH.
    destruct (Z.leb_spec lo a); destruct (Z.ltb_spec a hi); cbn; lia.
Qed.

(** X14: One child inside the bounds: the unused width of the strip is the width
    of the bounds less what the child uses of the width it asked for. *)
Theorem strip_of_one_child (g : PlacedContent) (a : attrs) (bounds : Rect) :
  get_attrs g = Ok a ->
  inside bounds a ->
  unused_width a <= width (requested a) ->
  _unused_horizontal_strip [g] bounds
  = Ok (width bounds - (width (requested a) - unused_width a)).
Proof.
  intros Ha Hin Hu.
  assert (Hw : 0 <= width bounds).
  { destruct Hin as [H1 H2]. unfold footprint, width in *. cbn [fst snd] in *. lia. }
  rewrite (strip_value [g] [a] bounds); [|cbn; now rewrite Ha| |exact Hw].
  2:{ constructor; [exact Hin|constructor]. }
  do 2 f_equal. unfold covered_columns. cbn [existsb].
  destruct Hin as [H1 H2]. unfold inside, covers, footprint, width in *.
  cbn [fst snd] in *.
  rewrite (map_ext _ (fun c =>
             if (left (requested a) + unused_width a / 2 - left bounds <=? c)
                && (c <? right (requested a) - unused_width a + unused_width a / 2
                         - left bounds)
             then 1 else 0)).
  - rewrite count_interval. lia.
  - intros c. now rewrite orb_false_r.
Qed.



End StripFacts.

(** * The unused width of a whole group *)

Section GroupWidthFacts.

Import Placed Strip.

Lemma insert_by_top_In (x y : item) (l : list item) :
  In x (insert_by_top y l) <-> x = y \/ In x l.
Proof.
  induction l as [|z l IH]; cbn.
  - intuition congruence.
  - destruct (item_top y <=? item_top z); cbn; [intuition congruence|].
    rewrite IH. intuition congruence.
Qed.

Lemma sorted_by_top_In (x : item) (l : list item) :
  In x (sorted_by_top l) <-> In x l.
Proof.
  induction l as [|y l IH]; cbn; [tauto|].
  rewrite insert_by_top_In, IH. intuition congruence.
Qed.

Lemma sorted_by_top_nonempty (l : list item) : l <> [] -> sorted_by_top l <> [].
Proof.
  destruct l as [|y l]; [contradiction|]. intros _ H.
  assert (I : In y (sorted_by_top (y :: l))) by (apply sorted_by_top_In; now left).
  rewrite H in I. destruct I.
Qed.

(** The keys read for the sort are the attributes of the objects. *)
Lemma keyed_spec (group : list PlacedContent) (keys : list item) :
  keyed group = Ok keys ->
  mapM get_attrs group = Ok (map fst keys) /\
  List.Forall (fun it => get_attrs (snd it) = Ok (fst it)) keys /\
  length keys = length group.
Proof.
  unfold keyed. revert keys. induction group as [|g group IH]; cbn; intros keys H.
  - injection H as <-. repeat split. constructor.
  - destruct (get_attrs g) as [a|] eqn:Ea; [|discriminate]. cbn in H.
    destruct (mapM _ group) as [ks|]; [|discriminate]. injection H as <-.
    destruct (IH ks eq_refl) as (H1 & H2 & H3). cbn. rewrite H1.
    repeat split; [|now f_equal]. constructor; [exact Ea | exact H2].
Qed.

Lemma mapM_get_attrs_items (l : list item) :
  List.Forall (fun it => get_attrs (snd it) = Ok (fst it)) l ->
  mapM get_attrs (map snd l) = Ok (map fst l).
Proof.
  induction 1 as [|it l H _ IH]; cbn; [reflexivity|]. now rewrite H, IH.
Qed.

Lemma covered_columns_ext (bounds : Rect) (l1 l2 : list attrs) :
  (forall a, In a l1 <-> In a l2) ->
  covered_columns bounds l1 = covered_columns bounds l2.
Proof.
  intros H. unfold covered_columns. f_equal. apply map_ext. intros c.
  assert (E : existsb (fun a => covers (left bounds) a c) l1
              = existsb (fun a => covers (left bounds) a c) l2).
  { apply eq_true_iff_eq. rewrite !existsb_exists.
    split; intros (a & Ha & Hc); exists a; split; try exact Hc; now apply H. }
  now rewrite E.
Qed.

Lemma covered_columns_range (bounds : Rect) (l : list attrs) :
  0 <= covered_columns bounds l.
Proof.
  unfold covered_columns, sum.
  induction (range 0 (width bounds)) as [|c cs IH]; cbn; [lia|].
  destruct (existsb _ l); lia.
Qed.

Lemma scan_raises (items : list PlacedContent) (bounds : Rect) (x : item)
    (rest : list item) (unused : Z) (e : exn) :
  _unused_horizontal_strip items bounds = Raise e ->
  scan items bounds (x :: rest) unused = Raise e.
Proof.
  intros H. simp scan. destruct (inspect _) as [[across rest''] Heq]. cbn.
  now rewrite H.
Qed.

Lemma calculate_range (group : list PlacedContent) (bounds : Rect) (u : Z) :
  group <> [] ->
  calculate_unused_width_for_group group bounds = Ok u ->
  0 <= u <= width bounds.
Proof.
  intros Hne. unfold calculate_unused_width_for_group.
  destruct (keyed group) as [keys|] eqn:Hk; [|discriminate]. cbn zeta.
  destruct (keyed_spec _ _ Hk) as (_ & _ & Hlen).
  assert (Hs : sorted_by_top keys <> []).
  { apply sorted_by_top_nonempty. destruct keys; [|discriminate].
    destruct group; [contradiction|discriminate]. }
  destruct (_unused_horizontal_strip (map snd (sorted_by_top keys)) bounds)
    as [s|e] eqn:Es.
  - rewrite (scan_measures_whole_group _ _ _ _ _ Es Hs).
    intros H. injection H as <-. apply strip_range in Es. lia.
  - destruct (sorted_by_top keys) as [|x rest]; [contradiction|].
    rewrite (scan_raises _ _ _ _ _ _ Es). discriminate.
Qed.

(** X16: An unused width that is computed for a group with a child lies between
    zero and the width of the bounds. Without a child the answer is the
    width of the bounds whatever it is: no strip is measured, so not even a
    negative width raises. *)
Theorem unused_width_in_range (group : list PlacedContent) (bounds : Rect) (u : Z) :
  calculate_unused_width_for_group group bounds = Ok u ->
  (group <> [] -> 0 <= u <= width bounds) /\
  (group = [] -> u = width bounds) /\
  calculate_unused_width_for_group [] bounds = Ok (width bounds).
Proof.
  intros H. split; [|split].
  - intros Hne. exact (calculate_range group bounds u Hne H).
  - intros ->. unfold calculate_unused_width_for_group in H. cbn in H.
    simp scan in H. now injection H as <-.
  - unfold calculate_unused_width_for_group. cbn. now simp scan.
Qed.

(** X17: With every footprint inside the bounds, the unused width of a group with
    a child is the number of columns under no footprint of any child, at
    whatever height the children are. *)
Theorem unused_width_counts_uncovered_columns (group : list PlacedContent)
    (children : list attrs) (bounds : Rect) :
  group <> [] ->
  mapM get_attrs group = Ok children ->
  Forall (inside bounds) children ->
  0 <= width bounds ->
  calculate_unused_width_for_group group bounds
  = Ok (width bounds - covered_columns bounds children).
Proof.
  intros Hne Hm Hin Hw. unfold calculate_unused_width_for_group.
  destruct (keyed group) as [keys|e] eqn:Hk.
  2:{ exfalso. clear Hne Hin. unfold keyed in Hk. revert children Hm e Hk.
      induction group as [|g group IH]; cbn; intros children Hm e Hk; [discriminate|].
      destruct (get_attrs g); [|discriminate]. cbn in *.
      destruct (mapM get_attrs group) as [cs|]; [|discriminate].
      destruct (mapM _ group) as [ks|e'] eqn:E; [discriminate|].
      exact (IH cs eq_refl e' eq_refl). }
  cbn zeta. destruct (keyed_spec _ _ Hk) as (Hm' & Hit & Hlen).
  rewrite Hm in Hm'. injection Hm' as ->.
  assert (Hs : sorted_by_top keys <> []).
  { apply sorted_by_top_nonempty. destruct keys; [|discriminate].
    destruct group; [contradiction|discriminate]. }
  assert (Hperm : forall a, In a (map fst (sorted_by_top keys)) <-> In a (map fst keys)).
  { intros a. rewrite !in_map_iff.
    split; intros (it & E & I); exists it; split; try exact E;
      now apply sorted_by_top_In. }
  assert (Es : _unused_horizontal_strip (map snd (sorted_by_top keys)) bounds
               = Ok (width bounds - covered_columns bounds (map fst keys))).
  { rewrite (strip_value _ (map fst (sorted_by_top keys)) bounds).
    - now rewrite (covered_columns_ext _ _ _ Hperm).
    - apply mapM_get_attrs_items. apply List.Forall_forall. intros it I.
      apply (proj1 (sorted_by_top_In _ _)) in I.
      exact (proj1 (List.Forall_forall _ keys) Hit it I).
    - apply List.Forall_forall. intros a I. apply (proj1 (Hperm a)) in I.
      exact (proj1 (List.Forall_forall _ (map fst keys)) Hin a I).
    - exact Hw. }
  rewrite (scan_measures_whole_group _ _ _ _ _ Es Hs). f_equal.
  pose proof (covered_columns_range bounds (map fst keys)). lia.
Qed.

End GroupWidthFacts.

(** * Moving, drawing and sizing placed objects *)

Section TreeFacts.

Import Placed Canvas.

Lemma mapM_Forall2 {A B : Type} (f : A -> res B) (l : list A) (r : list B) :
  mapM f l = Ok r -> Forall2 (fun a b => f a = Ok b) l r.
Proof.
  revert r. induction l as [|a l IH]; cbn; intros r H.
  - injection H as <-. constructor.
  - destruct (f a) as [b|] eqn:E; [|discriminate].
    destruct (mapM f l) as [bs|]; [|discriminate]. injection H as <-.
    constructor; [exact E | now apply IH].
Qed.

Lemma Forall2_mapM {A B : Type} (f : A -> res B) (l : list A) (r : list B) :
  Forall2 (fun a b => f a = Ok b) l r -> mapM f l = Ok r.
Proof. induction 1 as [|a b l r H _ IH]; cbn; [reflexivity|]. now rewrite H, IH. Qed.

Lemma rect_move_move (r : Rect) (dx1 dy1 dx2 dy2 : Z) :
  rect_move (rect_move r dx1 dy1) dx2 dy2 = rect_move r (dx1 + dx2) (dy1 + dy2).
Proof. unfold rect_move. cbn. f_equal; lia. Qed.

Lemma rect_move_zero (r : Rect) : rect_move r 0 0 = r.
Proof. destruct r. unfold rect_move. cbn. f_equal; lia. Qed.

Lemma move_attrs_move_attrs (a : attrs) (dx1 dy1 dx2 dy2 : Z) :
  move_attrs (move_attrs a dx1 dy1) dx2 dy2 = move_attrs a (dx1 + dx2) (dy1 + dy2).
Proof. unfold move_attrs, set_rects. cbn. now rewrite !rect_move_move. Qed.

Lemma move_attrs_zero (a : attrs) : move_attrs a 0 0 = a.
Proof. destruct a. unfold move_attrs, set_rects. cbn. now rewrite !rect_move_zero. Qed.

Lemma move_class_move_class (c : leaf_class) (dx1 dy1 dx2 dy2 : Z) :
  move_class (move_class c dx1 dy1) dx2 dy2 = move_class c (dx1 + dx2) (dy1 + dy2).
Proof. destruct c; cbn; try reflexivity. f_equal. f_equal; lia. Qed.

Lemma move_class_zero (c : leaf_class) : move_class c 0 0 = c.
Proof.
  destruct c as [| | | |[ox oy]|]; cbn; try reflexivity. f_equal. f_equal; lia.
Qed.

Lemma move_initialised (n : PlacedContent) (dx dy : Z) (n' : PlacedContent) :
  move n dx dy = Ok n' -> initialised n = true /\ initialised n' = true.
Proof.
  revert n'. induction n as [c a|a group IH] using PlacedContent_rect'; intros n' H.
  - cbn in H. injection H as <-. now split.
  - destruct a as [a|]; [|discriminate]. cbn in H.
    destruct (mapM _ group) as [group'|] eqn:E; [|discriminate]. injection H as <-.
    apply mapM_Forall2 in E. cbn. clear a.
    induction E as [|p p' group group' Hp _ IHg]; [now split|].
    inversion IH as [|? ? Hq IH']; subst. destruct (Hq _ Hp) as [H1 H2].
    destruct (IHg IH') as [H3 H4]. cbn. now rewrite H1, H2, H3, H4.
Qed.

Lemma move_by_zero (n : PlacedContent) : initialised n = true -> move n 0 0 = Ok n.
Proof.
  induction n as [c a|a group IH] using PlacedContent_rect'; intros Hi.
  - cbn. now rewrite move_class_zero, move_attrs_zero.
  - destruct a as [a|]; [|discriminate]. cbn in *.
    assert (E : mapM (fun p => move p 0 0) group = Ok group).
    { induction IH as [|p group Hp _ IHg]; cbn in *; [reflexivity|].
      apply andb_true_iff in Hi. destruct Hi as [H1 H2].
      now rewrite (Hp H1), (IHg H2). }
    now rewrite E, move_attrs_zero.
Qed.

Lemma move_twice (n : PlacedContent) (dx1 dy1 dx2 dy2 : Z) (n1 : PlacedContent) :
  move n dx1 dy1 = Ok n1 ->
  move n1 dx2 dy2 = move n (dx1 + dx2) (dy1 + dy2).
Proof.
  revert n1. induction n as [c a|a group IH] using PlacedContent_rect'; intros n1 H.
  - cbn in H. injection H as <-. cbn.
    now rewrite move_class_move_class, move_attrs_move_attrs.
  - destruct a as [a|]; [|discriminate]. cbn in H.
    destruct (mapM _ group) as [group1|] eqn:E; [|discriminate]. injection H as <-.
    cbn. rewrite move_attrs_move_attrs.
    assert (G : mapM (fun p => move p dx2 dy2) group1
                = mapM (fun p => move p (dx1 + dx2) (dy1 + dy2)) group).
    { apply mapM_Forall2 in E. clear a.
      induction E as [|p p1 group group1 Hp _ IHg]; [reflexivity|].
      inversion IH as [|? ? Hq IH']; subst. cbn.
      now rewrite (Hq _ Hp), (IHg IH'). }
    now rewrite G.
Qed.

(** X18: Two moves in a row are one move by the sum of the offsets, and moving
    back by the opposite offset restores the object and all its children. *)
Theorem move_is_additive (n : PlacedContent) (dx1 dy1 dx2 dy2 : Z)
    (n1 : PlacedContent) :
  move n dx1 dy1 = Ok n1 ->
  move n1 dx2 dy2 = move n (dx1 + dx2) (dy1 + dy2) /\
  move n1 (- dx1) (- dy1) = Ok n.
Proof.
  intros H. split; [now apply move_twice|].
  rewrite (move_twice _ _ _ _ _ _ H).
  replace (dx1 + - dx1) with 0 by lia. replace (dy1 + - dy1) with 0 by lia.
  apply move_by_zero. now destruct (move_initialised _ _ _ _ H).
Qed.

Lemma width_rect_move (r : Rect) (dx dy : Z) : width (rect_move r dx dy) = width r.
Proof. unfold width, rect_move. cbn. lia. Qed.

Lemma height_rect_move (r : Rect) (dx dy : Z) : height (rect_move r dx dy) = height r.
Proof. unfold height, rect_move. cbn. lia. Qed.

(** X19: A move changes none of the three errors of the object. *)
Theorem move_keeps_errors (n : PlacedContent) (dx dy : Z) (n' : PlacedContent)
    (mb mg m : float) :
  move n dx dy = Ok n' ->
  error_from_size n' mb mg = error_from_size n mb mg /\
  error_from_breaks n' mb mg = error_from_breaks n mb mg /\
  error_from_variance n' m = error_from_variance n m.
Proof.
  destruct n as [c a|[a|] group]; cbn; intros H; [| |discriminate].
  - injection H as <-. repeat split.
    destruct c; cbn; try reflexivity.
    now rewrite width_rect_move, height_rect_move.
  - destruct (mapM _ group); [|discriminate]. injection H as <-. now repeat split.
Qed.

(** X20: Drawing after a move asks the canvas for what drawing before the move
    asks, translated: the same requests in the same order, each rectangle
    and each path offset moved by [(dx, dy)]. *)
Theorem draw_after_move (n : PlacedContent) (dx dy : Z) (n' : PlacedContent) :
  move n dx dy = Ok n' ->
  exists cmds, draw n = Ok cmds /\ draw n' = Ok (map (shift_cmd dx dy) cmds).
Proof.
  revert n'. induction n as [c a|a group IH] using PlacedContent_rect'; intros n' H.
  - cbn in H. injection H as <-. destruct c as [| | | |[ox oy]|]; cbn; eauto.
  - destruct a as [a|]; [|discriminate]. cbn in H.
    destruct (mapM _ group) as [group'|] eqn:E; [|discriminate]. injection H as <-.
    assert (G : exists cs, mapM draw group = Ok cs /\
                           mapM draw group' = Ok (map (map (shift_cmd dx dy)) cs)).
    { apply mapM_Forall2 in E. clear a.
      induction E as [|p p' group group' Hp _ IHg]; [exists []; now split|].
      inversion IH as [|? ? Hq IH']; subst.
      destruct (Hq _ Hp) as (c1 & H1 & H2). destruct (IHg IH') as (cs & H3 & H4).
      exists (c1 :: cs). cbn. now rewrite H1, H2, H3, H4. }
    destruct G as (cs & H1 & H2). cbn. rewrite H1, H2.
    eexists. split; [reflexivity|]. f_equal.
    rewrite map_app, concat_map. f_equal. now destruct (debug (pdf a)).
Qed.

Lemma move_outcome (n : PlacedContent) (dx dy : Z) :
  (initialised n = true /\ exists n', move n dx dy = Ok n') \/
  (initialised n = false /\ move n dx dy = Raise AttributeError).
Proof.
  induction n as [c a|a group IH] using PlacedContent_rect'.
  - left. cbn. eauto.
  - destruct a as [a|]; [|now right]. cbn.
    assert (G : (forallb initialised group = true /\
                 exists g', mapM (fun p => move p dx dy) group = Ok g') \/
                (forallb initialised group = false /\
                 mapM (fun p => move p dx dy) group = Raise AttributeError)).
    { induction IH as [|p group Hp _ IHg]; cbn; [left; eauto|].
      destruct Hp as [(H1 & p' & H2)|(H1 & H2)]; rewrite H1, H2; cbn; [|now right].
      destruct IHg as [(H3 & g' & H4)|(H3 & H4)]; rewrite H4; [left|right]; eauto. }
    destruct G as [(H1 & g' & H2)|(H1 & H2)]; rewrite H2; [left|right]; eauto.
Qed.

Lemma draw_outcome (n : PlacedContent) :
  (initialised n = true /\ exists cmds, draw n = Ok cmds) \/
  (initialised n = false /\ draw n = Raise AttributeError).
Proof.
  induction n as [c a|a group IH] using PlacedContent_rect'.
  - left. destruct c; cbn; eauto.
  - destruct a as [a|]; [|now right]. cbn.
    assert (G : (forallb initialised group = true /\
                 exists cs, mapM draw group = Ok cs) \/
                (forallb initialised group = false /\
                 mapM draw group = Raise AttributeError)).
    { induction IH as [|p group Hp _ IHg]; cbn; [left; eauto|].
      destruct Hp as [(H1 & p' & H2)|(H1 & H2)]; rewrite H1, H2; cbn; [|now right].
      destruct IHg as [(H3 & g' & H4)|(H3 & H4)]; rewrite H4; [left|right]; eauto. }
    destruct G as [(H1 & g' & H2)|(H1 & H2)]; rewrite H2; [left|right]; eauto.
Qed.

(** X21: [move] and [draw] raise exactly on an object that is, or holds at some
    depth, a group that never got its attributes, and what they raise is
    [AttributeError]. *)
Theorem move_and_draw_raise_without_attributes (n : PlacedContent) (dx dy : Z) :
  (initialised n = false <-> move n dx dy = Raise AttributeError) /\
  (initialised n = false <-> draw n = Raise AttributeError) /\
  (forall e, move n dx dy = Raise e \/ draw n = Raise e -> e = AttributeError).
Proof.
  destruct (move_outcome n dx dy) as [(H1 & n' & H2)|(H1 & H2)];
    destruct (draw_outcome n) as [(H3 & cs & H4)|(H3 & H4)];
    rewrite ?H2, ?H4; try congruence.
  - rewrite H1. repeat split; try discriminate. intros e [H|H]; discriminate.
  - rewrite H1. repeat split; try reflexivity.
    intros e [H|H]; congruence.
Qed.

(** *** [parent_sized] *)

Lemma parent_sized_draw (n : PlacedContent) (bounds : Rect) (n' : PlacedContent) :
  parent_sized n bounds = Ok n' -> draw n' = draw n.
Proof.
  revert bounds n'.
  induction n as [c a|a group IH] using PlacedContent_rect'; intros bounds n' H.
  - destruct c; cbn in H; injection H as <-; reflexivity.
  - assert (G : forall b group', mapM (fun c => parent_sized c b) group = Ok group' ->
                mapM draw group' = mapM draw group).
    { clear H. intros b group' E. apply mapM_Forall2 in E.
      induction E as [|p p' group group' Hp _ IHg]; [reflexivity|].
      inversion IH as [|? ? Hq IH']; subst. cbn.
      now rewrite (Hq _ _ Hp), (IHg IH'). }
    cbn [parent_sized] in H. destruct group as [|p group]; [now injection H as <-|].
    destruct (1 <? length (p :: group))%nat.
    + destruct a as [a|]; [|discriminate].
      destruct (mapM _ (p :: group)) as [group'|] eqn:E; [|discriminate].
      injection H as <-. cbn [draw]. now rewrite (G _ _ E).
    + destruct (mapM _ (p :: group)) as [group'|] eqn:E; [|discriminate].
      injection H as <-. destruct a as [a|]; [|reflexivity].
      cbn [draw]. now rewrite (G _ _ E).
Qed.

Lemma parent_sized_attrs (n : PlacedContent) (bounds : Rect) (n' : PlacedContent) :
  parent_sized n bounds = Ok n' ->
  get_attrs n' = get_attrs n \/
  exists a, n = Leaf PlacedImageContent a /\
            n' = Leaf PlacedImageContent
                   (set_ok_breaks a (Z.max 0 ((height bounds - height (actual a)) / 5))).
Proof.
  destruct n as [c a|a group]; cbn [parent_sized]; intros H.
  - destruct c; injection H as <-; eauto.
  - left. destruct group as [|p group]; [now injection H as <-|].
    destruct (1 <? length (p :: group))%nat.
    + destruct a as [a|]; [|discriminate].
      destruct (mapM _ (p :: group)); [|discriminate]. now injection H as <-.
    + destruct (mapM _ (p :: group)); [|discriminate]. now injection H as <-.
Qed.

(** X22: Telling an object the size of its parent changes nothing of what is
    drawn and nothing of its size and variance errors; of the break error
    only the good breaks of an image can change, and they become the
    non-negative fifth of the height the image leaves free. *)
Theorem parent_sized_changes_only_image_breaks (n : PlacedContent) (bounds : Rect)
    (n' : PlacedContent) (mb mg m : float) :
  parent_sized n bounds = Ok n' ->
  draw n' = draw n /\
  error_from_size n' mb mg = error_from_size n mb mg /\
  error_from_variance n' m = error_from_variance n m /\
  (error_from_breaks n' mb mg = error_from_breaks n mb mg \/
   exists a a', n = Leaf PlacedImageContent a /\ n' = Leaf PlacedImageContent a' /\
     bad_breaks a' = bad_breaks a /\
     ok_breaks a' = Z.max 0 ((height bounds - height (actual a)) / 5)).
Proof.
  intros H. split; [exact (parent_sized_draw _ _ _ H)|].
  destruct (parent_sized_attrs _ _ _ H) as [E|(a & -> & ->)].
  - assert (C : forall c a, n = Leaf c a -> n' = n).
    { intros c a ->. cbn in H. destruct c; try now injection H as <-.
      injection H as <-. cbn in E. injection E as E. now rewrite E. }
    destruct n as [c a|a group].
    + rewrite (C c a eq_refl). repeat split. now left.
    + assert (exists a' g', n' = PlacedGroupContent a' g') as (a' & g' & ->).
      { cbn [parent_sized] in H. destruct group as [|p group]; [injection H as <-; eauto|].
        destruct (1 <? length (p :: group))%nat.
        - destruct a as [a|]; [|discriminate].
          destruct (mapM _ (p :: group)); [|discriminate]. injection H as <-; eauto.
        - destruct (mapM _ (p :: group)); [|discriminate]. injection H as <-; eauto. }
      unfold error_from_size, error_from_variance, error_from_breaks.
      rewrite E. repeat split. now left.
  - repeat split. right. exists a. eexists. repeat split.
Qed.

Lemma parent_sized_initialised (n : PlacedContent) (bounds : Rect) (n' : PlacedContent) :
  parent_sized n bounds = Ok n' -> initialised n = true -> initialised n' = true.
Proof.
  revert bounds n'.
  induction n as [c a|a group IH] using PlacedContent_rect'; intros bounds n' H Hi.
  - destruct c; cbn in H; injection H as <-; reflexivity.
  - destruct a as [a|]; [|discriminate].
    assert (G : forall b group', mapM (fun c => parent_sized c b) group = Ok group' ->
                forallb initialised group' = true).
    { clear H. intros b group' E. apply mapM_Forall2 in E. cbn in Hi.
      induction E as [|p p' group group' Hp _ IHg]; [reflexivity|].
      inversion IH as [|? ? Hq IH']; subst. cbn in *.
      apply andb_true_iff in Hi. destruct Hi as [H1 H2].
      now rewrite (Hq _ _ Hp H1), (IHg IH' H2). }
    cbn [parent_sized] in H. destruct group as [|p group]; [now injection H as <-|].
    destruct (1 <? length (p :: group))%nat;
      destruct (mapM _ (p :: group)) as [group'|] eqn:E; try discriminate;
      injection H as <-; cbn [initialised]; exact (G _ _ E).
Qed.

(** *** [PlacedGroupContent.__init__] *)

Lemma bind_Ok {A B : Type} (m : res A) (f : A -> res B) (r : B) :
  (m ≫= f) = Ok r -> exists x, m = Ok x /\ f x = Ok r.
Proof. destruct m as [x|e]; cbn; [eauto|discriminate]. Qed.

Lemma mapM_get (f : attrs -> Z) (l : list PlacedContent) (r : list Z) :
  mapM (fun i => a ← get_attrs i; Ok (f a)) l = Ok r ->
  exists cs, mapM get_attrs l = Ok cs /\ r = map f cs.
Proof.
  revert r. induction l as [|p l IH]; cbn; intros r H.
  - injection H as <-. now exists [].
  - destruct (get_attrs p) as [a|]; [|discriminate]. cbn in H.
    destruct (mapM _ l) as [r'|]; [|discriminate]. injection H as <-.
    destruct (IH r' eq_refl) as (cs & -> & ->). now exists (a :: cs).
Qed.

Lemma true_children_constructed (children : list (option PlacedContent)) :
  Forall (fun c => match c with Some p => constructed p | None => True end) children ->
  forallb initialised (true_children children) = true.
Proof.
  induction 1 as [|c children Hc _ IH]; cbn; [reflexivity|].
  destruct c as [p|]; [|exact IH].
  destruct (truthy (Some p)) eqn:T; [|exact IH]. cbn.
  destruct Hc as [Hi| ->]; [|discriminate]. now rewrite Hi.
Qed.

(** X23: What the constructor of a group leaves in its attributes, when it gets
    that far: the requested rectangle as given, break counts that are the
    sums over the children kept, no internal variance; and an unused width
    that is the (negative) shortfall when the requested rectangle is
    narrower than the actual one, and else lies between zero and the
    requested width. *)
Theorem group_init_attributes (children : list (option PlacedContent))
    (req : Rect) (act : option Rect) (n : PlacedContent) (a : attrs) :
  PlacedGroupContent_init (Some children) req act = Ok n ->
  get_attrs n = Ok a ->
  requested a = req /\
  (exists cs, mapM get_attrs (true_children children) = Ok cs /\
     ok_breaks a = sum (map ok_breaks cs) /\
     bad_breaks a = sum (map bad_breaks cs)) /\
  internal_variance a = 0 /\
  (if width req <? width (actual a)
   then unused_width a = width req - width (actual a)
   else 0 <= unused_width a <= width req).
Proof.
  unfold PlacedGroupContent_init.
  destruct (true_children children) as [|first others] eqn:Et.
  { intros H. injection H as <-. discriminate. }
  set (group := first :: others). intros H.
  apply bind_Ok in H as (actual' & _ & H). apply bind_Ok in H as (a0 & E0 & H).
  apply bind_Ok in H as (oks & Eo & H). apply bind_Ok in H as (bads & Eb & H).
  apply bind_Ok in H as (unused & Eu & H). apply bind_Ok in H as (group' & Eg & H).
  injection H as <-. cbn. intros H. injection H as <-. cbn.
  destruct (mapM_get ok_breaks _ _ Eo) as (cs & Hcs & ->).
  destruct (mapM_get bad_breaks _ _ Eb) as (cs' & Hcs' & ->).
  rewrite Hcs in Hcs'. injection Hcs' as <-.
  split; [reflexivity|]. split; [now exists cs|]. split; [reflexivity|].
  destruct (width req <? width actual').
  - now injection Eu as <-.
  - apply calculate_range in Eu; [exact Eu|discriminate].
Qed.

(** X24: Built from children that are themselves as the constructors leave
    them, a group is again such an object: the group of no child, or an
    object with all its attributes at every depth, on which [move] and
    [draw] do not raise. The children it keeps are as many as were true. *)
Theorem group_init_constructed (children : list (option PlacedContent))
    (req : Rect) (act : option Rect) (n : PlacedContent) :
  Forall (fun c => match c with Some p => constructed p | None => True end) children ->
  PlacedGroupContent_init (Some children) req act = Ok n ->
  constructed n /\
  exists a group, n = PlacedGroupContent a group /\
                  length group = length (true_children children).
Proof.
  intros Hc. apply true_children_constructed in Hc.
  unfold PlacedGroupContent_init.
  destruct (true_children children) as [|first others] eqn:Et.
  { intros H. injection H as <-. split; [now right|]. now exists None, []. }
  set (group := first :: others) in *. intros H.
  apply bind_Ok in H as (actual' & _ & H). apply bind_Ok in H as (a0 & E0 & H).
  apply bind_Ok in H as (oks & Eo & H). apply bind_Ok in H as (bads & Eb & H).
  apply bind_Ok in H as (unused & Eu & H). apply bind_Ok in H as (group' & Eg & H).
  revert H.
  intros H. injection H as <-. split.
  - left. cbn. apply mapM_Forall2 in Eg. clear -Eg Hc.
    induction Eg as [|p p' g g' Hp _ IH]; [reflexivity|]. cbn in *.
    apply andb_true_iff in Hc. destruct Hc as [H1 H2].
    now rewrite (parent_sized_initialised _ _ _ Hp H1), (IH H2).
  - eexists _, _. split; [reflexivity|]. exact (mapM_length _ _ _ Eg).
Qed.

End TreeFacts.

Section OptimizerInvariantScenarios.

Import Optimizer OptimizerLog Scenarios.

Lemma score_called_only_on_valid_trials_witness :
  exists evs,
    calls (snd (_stage2optimize (P := quadratic) probe_once [7] start))
    = calls start ++ Stage2Call [7] :: evs /\
    Forall (gated_score_call (P := quadratic) [7]) evs.
Proof.
  apply (score_called_only_on_valid_trials (P := quadratic) probe_once [7] start
           (fst (_stage2optimize (P := quadratic) probe_once [7] start))
           (snd (_stage2optimize (P := quadratic) probe_once [7] start))).
  vm_compute; reflexivity.
Defined.

Lemma stage1func_stores_what_it_returns_witness :
  fst (stage1func (P := quadratic) probe_once [7] start) = Ok (Some 0%Q) /\
  exists params2,
    best_combos (snd (stage1func (P := quadratic) probe_once [7] start)) !! [7]
    = Some (Some 0%Q, params2).
Proof.
  split; [vm_compute; reflexivity|].
  apply (stage1func_stores_what_it_returns (P := quadratic) probe_once [7] start
           (Some 0%Q)
           (snd (stage1func (P := quadratic) probe_once [7] start))).
  vm_compute; reflexivity.
Defined.

Lemma best_combos_keys_are_the_coarse_trials_witness :
  exists evs,
    calls (snd (run (P := quadratic) probe_once (mkOptParams [7] 0 10) start))
    = calls start ++ evs /\
    forall t,
      is_Some (best_combos
                 (snd (run (P := quadratic) probe_once (mkOptParams [7] 0 10) start))
               !! t)
      <-> Stage2Call t ∈ evs.
Proof.
  apply (best_combos_keys_are_the_coarse_trials (P := quadratic) probe_once
           (mkOptParams [7] 0 10) start
           (Some 0%Q, Some (mkOptParams [7] 0 10), Some (mkOptParams [2] 0 5))
           (snd (run (P := quadratic) probe_once (mkOptParams [7] 0 10) start))).
  vm_compute; reflexivity.
Defined.

Lemma run_raises_KeyError_on_untried_optimum_witness :
  _params2array (mkOptParams [5] 0 10) = Ok [(1 # 2)%Q] /\
  _array2params [1%Q] (mkOptParams [5] 0 10) = Ok (mkOptParams [10] 0 10) /\
  fst (run (P := quadratic) stray (mkOptParams [5] 0 10) start) = Raise KeyError.
Proof.
  split; [vm_compute; reflexivity|]. split; [vm_compute; reflexivity|].
  rewrite (run_raises_KeyError_on_untried_optimum (P := quadratic) stray
             (mkOptParams [5] 0 10) start [(1 # 2)%Q]
             (mkResult true [1%Q] 0%Q)
             (snd (drive (stray [(1 # 2)%Q])
                         (adapter (stage1func (P := quadratic) stray)
                                  (mkOptParams [5] 0 10))
                         start))
             (mkOptParams [10] 0 10)).
  - reflexivity.
  - vm_compute; reflexivity.
  - vm_compute; reflexivity.
  - reflexivity.
  - vm_compute; reflexivity.
  - discriminate.
  - assert (E : drop (length (calls start))
                     (calls (snd (drive (stray [(1 # 2)%Q])
                                   (adapter (stage1func (P := quadratic) stray)
                                            (mkOptParams [5] 0 10))
                                   start)))
                = [Stage2Call [5]; ScoreCall [5] [2]])
      by (vm_compute; reflexivity).
    rewrite E. intros H.
    repeat (apply elem_of_cons in H as [H|H]; [discriminate|]).
    inversion H.
Defined.

Lemma run_on_no_parameters_witness :
  _params2array (mkOptParams [] 0 10) = Ok [] /\
  fst (run (P := quadratic) probe_once (mkOptParams [] 0 10) start)
  = Ok (None, None, None).
Proof.
  split; [reflexivity|].
  rewrite (run_on_no_parameters (P := quadratic) probe_once
             (mkOptParams [] 0 10) start []
             (mkResult true [] 49%Q)
             (snd (drive (probe_once [])
                         (adapter (stage1func (P := quadratic) probe_once)
                                  (mkOptParams [] 0 10))
                         start))).
  - reflexivity.
  - reflexivity.
  - vm_compute; reflexivity.
  - reflexivity.
  - reflexivity.
Defined.

Lemma run_rejects_reversed_bounds_witness :
  0 < 10 /\
  run (P := quadratic) probe_once (mkOptParams [5] 10 0) start
  = (Raise ValueError, mkState ∅ (calls start)).
Proof.
  split; [lia|].
  apply (run_rejects_reversed_bounds (P := quadratic) probe_once
           (mkOptParams [5] 10 0) start); [cbn; lia | discriminate].
Defined.

Lemma run_result_goes_together_witness :
  fst (run (P := quadratic) probe_once (mkOptParams [7] 0 10) start)
  = Ok (Some 0%Q, Some (mkOptParams [7] 0 10), Some (mkOptParams [2] 0 5)) /\
  (is_Some (Some (mkOptParams [2] 0 5)) ->
   is_Some (Some 0%Q) /\ is_Some (Some (mkOptParams [7] 0 10))).
Proof.
  split; [vm_compute; reflexivity|].
  apply (run_result_goes_together (P := quadratic) probe_once
           (mkOptParams [7] 0 10) start
           (Some 0%Q) (Some (mkOptParams [7] 0 10)) (Some (mkOptParams [2] 0 5))
           (snd (run (P := quadratic) probe_once (mkOptParams [7] 0 10) start))).
  vm_compute; reflexivity.
Defined.

End OptimizerInvariantScenarios.

Section PlacedMoreScenarios.

Import Placed Strip Canvas Scenarios Layouts.

Lemma strip_counts_uncovered_columns_witness :
  0 <= width test_bounds /\
  _unused_horizontal_strip [test_a; test_b; test_c] test_bounds = Ok 12.
Proof.
  split; [vm_compute; discriminate|].
  rewrite (strip_counts_uncovered_columns [test_a; test_b; test_c]
             [mkAttrs canvas (mkRect 130 100 170 200) (mkRect 130 100 170 200)
                      0 0 0 17 false;
              mkAttrs canvas (mkRect 180 100 190 200) (mkRect 180 100 190 200)
                      0 0 0 2 false;
              mkAttrs canvas (mkRect 100 100 190 200) (mkRect 100 100 190 200)
                      0 0 0 2 false]
             test_bounds).
  - vm_compute; reflexivity.
  - reflexivity.
  - repeat constructor; vm_compute; discriminate.
  - vm_compute; discriminate.
Defined.

Lemma strip_of_one_child_witness :
  17 <= width (mkRect 130 100 170 200) /\
  _unused_horizontal_strip [test_a] test_bounds = Ok (30 + 30 + 17).
Proof.
  split; [vm_compute; discriminate|].
  rewrite (strip_of_one_child test_a
             (mkAttrs canvas (mkRect 130 100 170 200) (mkRect 130 100 170 200)
                      0 0 0 17 false)
             test_bounds).
  - vm_compute; reflexivity.
  - reflexivity.
  - split; vm_compute; discriminate.
  - vm_compute; discriminate.
Defined.


Lemma unused_width_in_range_witness :
  calculate_unused_width_for_group [upper; lower] page = Ok 0 /\
  0 <= 0 <= width page.
Proof.
  assert (H : calculate_unused_width_for_group [upper; lower] page = Ok 0)
    by (vm_compute; reflexivity).
  split; [exact H|].
  destruct (unused_width_in_range [upper; lower] page 0 H) as (H1 & _).
  apply H1. discriminate.
Defined.

Lemma unused_width_counts_uncovered_columns_witness :
  [upper; lower] <> [] /\ 0 <= width page /\
  calculate_unused_width_for_group [upper; lower] page = Ok 0.
Proof.
  split; [discriminate|]. split; [vm_compute; discriminate|].
  rewrite (unused_width_counts_uncovered_columns [upper; lower]
             [mkAttrs canvas (mkRect 0 0 50 10) (mkRect 0 0 50 10) 0 0 0 0 false;
              mkAttrs canvas (mkRect 50 20 100 30) (mkRect 50 20 100 30) 0 0 0 0 false]
             page).
  - vm_compute; reflexivity.
  - discriminate.
  - reflexivity.
  - repeat constructor; vm_compute; discriminate.
  - vm_compute; discriminate.
Defined.

Lemma move_is_additive_witness :
  move column 3 4 = Ok column_moved /\
  move column_moved 10 20 = move column 13 24 /\
  move column_moved (-3) (-4) = Ok column.
Proof.
  assert (H : move column 3 4 = Ok column_moved) by (vm_compute; reflexivity).
  split; [exact H|].
  exact (move_is_additive column 3 4 10 20 column_moved H).
Defined.

Lemma move_keeps_errors_witness :
  move column 3 4 = Ok column_moved /\
  error_from_size column_moved 1000%Q 1%Q = error_from_size column 1000%Q 1%Q.
Proof.
  assert (H : move column 3 4 = Ok column_moved) by (vm_compute; reflexivity).
  split; [exact H|].
  destruct (move_keeps_errors column 3 4 column_moved 1000%Q 1%Q 1%Q H) as (H1 & _).
  exact H1.
Defined.

Lemma draw_after_move_witness :
  move column 3 4 = Ok column_moved /\
  exists cmds,
    draw column = Ok cmds /\ draw column_moved = Ok (map (shift_cmd 3 4) cmds).
Proof.
  assert (H : move column 3 4 = Ok column_moved) by (vm_compute; reflexivity).
  split; [exact H|].
  exact (draw_after_move column 3 4 column_moved H).
Defined.

Lemma parent_sized_changes_only_image_breaks_witness :
  parent_sized picture page
  = Ok (Leaf PlacedImageContent
             (set_ok_breaks (PlacedContent_init (mkRect 0 0 50 40) (mkRect 0 0 50 40)
                                                canvas) 12)) /\
  draw (Leaf PlacedImageContent
             (set_ok_breaks (PlacedContent_init (mkRect 0 0 50 40) (mkRect 0 0 50 40)
                                                canvas) 12))
  = draw picture.
Proof.
  assert (H : parent_sized picture page
              = Ok (Leaf PlacedImageContent
                      (set_ok_breaks (PlacedContent_init (mkRect 0 0 50 40)
                                        (mkRect 0 0 50 40) canvas) 12)))
    by (vm_compute; reflexivity).
  split; [exact H|].
  destruct (parent_sized_changes_only_image_breaks picture page _ 1000%Q 1%Q 1%Q H)
    as (H1 & _).
  exact H1.
Defined.

Lemma group_init_attributes_witness :
  let a := mkAttrs canvas (mkRect 0 0 60 100) (mkRect 0 0 100 30) 0 0 0 (-40) false in
  PlacedGroupContent_init (Some [Some upper; None; Some lower]) (mkRect 0 0 60 100) None
  = Ok (PlacedGroupContent (Some a) [upper; lower]) /\
  (if width (mkRect 0 0 60 100) <? width (actual a)
   then unused_width a = width (mkRect 0 0 60 100) - width (actual a)
   else 0 <= unused_width a <= width (mkRect 0 0 60 100)).
Proof.
  intros a.
  assert (H : PlacedGroupContent_init (Some [Some upper; None; Some lower])
                (mkRect 0 0 60 100) None
              = Ok (PlacedGroupContent (Some a) [upper; lower]))
    by (vm_compute; reflexivity).
  split; [exact H|].
  destruct (group_init_attributes [Some upper; None; Some lower] (mkRect 0 0 60 100)
              None (PlacedGroupContent (Some a) [upper; lower]) a H eq_refl)
    as (_ & _ & _ & H4).
  exact H4.
Defined.

Lemma group_init_constructed_witness :
  Forall (fun c => match c with Some p => constructed p | None => True end)
         [Some upper; Some (PlacedGroupContent None []); None; Some lower] /\
  constructed column.
Proof.
  assert (H : Forall (fun c => match c with Some p => constructed p | None => True end)
                     [Some upper; Some (PlacedGroupContent None []); None; Some lower]).
  { repeat constructor; first [now left | now right]. }
  split; [exact H|].
  destruct (group_init_constructed
              [Some upper; Some (PlacedGroupContent None []); None; Some lower]
              page (Some page) column H) as (H1 & _).
  - vm_compute; reflexivity.
  - exact H1.
Defined.

End PlacedMoreScenarios.
